(** * The screen-language AST of renpy/sl2/slast.py

    A shallow embedding of the node classes of [renpy/sl2/slast.py]
    ([SLContext], [SLNode], [SLBlock], [SLDisplayable], [SLIf], [SLFor],
    [SLPython], [SLPass], [SLDefault]) with their three passes [prepare],
    [execute] and [keywords], followed by the properties of the
    compile/execute split that the specification states.

    Python objects are modelled by value.  Where the source shares one
    object between two names (the scope mapping of a context and of the
    context derived from it, the stored positional list of a displayable and
    the local [positional]), the model threads the object explicitly and
    writes it back, and says so at the place. *)

From Stdlib Require Import ZArith.
From stdpp Require Import base option list strings gmap.

Set Warnings "-register-all".
Set Default Proof Using "Type".

(** ** Python values *)

(** The values the file manipulates.  [use_expression] is the module-level
    sentinel [use_expression = object()]; [VContext] is an [SLContext]
    handed to a construction function ([pass_context]), recorded with the
    scope, keywords and style prefix it has at that moment (its children
    list is the fresh empty list then); [VObject] is an opaque object of the
    host (a style, a transform). *)
Inductive value :=
| VNone
| VBool (b : bool)
| VInt (n : Z)
| VStr (s : string)
| VTuple (vs : list value)
| VList (vs : list value)
| VDict (d : gmap string value)
| VObject (name : string)
| VContext (scope keywords : gmap string value) (style_prefix : string)
| use_expression.

(** A string-keyed Python dict: scopes, keyword sets. *)
Abbreviation dict := (gmap string value).

(** [not d] for a dict. *)
Definition is_empty (d : dict) : bool :=
  bool_decide (dom d = (∅ : gset string)).

(** Python truth value. *)
Definition truthy (v : value) : bool :=
  match v with
  | VNone => false
  | VBool b => b
  | VInt n => negb (n =? 0)%Z
  | VStr s => negb (String.eqb s "")
  | VTuple vs | VList vs => negb (bool_decide (vs = []))
  | VDict d => negb (is_empty d)
  | VObject _ | VContext _ _ _ | use_expression => true
  end.

(** ** Exceptions *)

Inductive exn :=
| SyntaxError
| NameError (name : string)
| TypeError
| AttributeError
| IndexError
| HostError (msg : string).

(** The outcome of a call: a value, a raised exception, or (for the fuelled
    [execute] only) not enough fuel. *)
Inductive result (A : Type) :=
| Ok (a : A)
| Raise (e : exn)
| OutOfFuel.
Arguments Ok {A} a.
Arguments Raise {A} e.
Arguments OutOfFuel {A}.

#[global] Instance result_ret : MRet result := λ A a, Ok a.
#[global] Instance result_bind : MBind result := λ A B f m,
  match m with
  | Ok a => f a
  | Raise e => Raise e
  | OutOfFuel => OutOfFuel
  end.

(** A call on every element of a list, from left to right, stopping at the
    first that does not return. *)
Definition traverse {A B} (f : A → result B) : list A → result (list B) :=
  fix go l :=
    match l with
    | [] => Ok []
    | a :: l' => b ← f a; bs ← go l'; Ok (b :: bs)
    end.

(** A call on every element of a list in turn, each on the state the one
    before left. *)
Definition foldM {A S} (f : A → S → result S) : list A → S → result S :=
  fix go l s :=
    match l with
    | [] => Ok s
    | a :: l' => s' ← f a s; go l' s'
    end.

(** Reading an attribute that [prepare] sets: absent before [prepare]. *)
Definition attr (A : Type) := option A.
Definition getattr {A} (a : attr A) : result A :=
  match a with
  | Some x => Ok x
  | None => Raise AttributeError
  end.

(** [for i in value]: the elements a Python value iterates over. *)
Fixpoint chars (s : string) : list value :=
  match s with
  | EmptyString => []
  | String c s' => VStr (String c EmptyString) :: chars s'
  end.

Definition iterate (v : value) : result (list value) :=
  match v with
  | VTuple vs | VList vs => Ok vs
  | VStr s => Ok (chars s)
  | VDict d => Ok ((λ kv, VStr kv.1) <$> map_to_list d)
  | _ => Raise TypeError
  end.

(** ** Python syntax trees and byte code *)

(** The [ast] nodes the file builds ([ast.Num], [ast.Str], [ast.Tuple],
    [ast.Dict]) and the node of an expression of the user, which only the
    host can evaluate. *)
Inductive ast :=
| Num (n : Z)
| Str (s : string)
| Tuple (elts : list ast)
| Dict (keys values : list ast)
| Expr (src : string).

(** A compiled expression: [compile(ast.Expression(body=node), filename,
    [eval] mode)]. *)
Inductive bytecode := Code (body : ast).

(** How a call of [py_eval_bytecode] passes the scope: not at all
    ([py_eval_bytecode(bytecode)]), as the second positional argument
    ([py_eval_bytecode(bytecode, scope)]) or as [locals=scope]. *)
Inductive scope_arg :=
| Unscoped
| Positional (scope : dict)
| Locals (scope : dict).

(** ** Constructed elements *)

(** A displayable is recorded by the call that built it and what was added
    to it since; [Transformed] is at the disposal of the host for the
    result of a transform. *)
Inductive element :=
| Built (displayable : string) (positional : list value) (keywords : dict)
        (added : list element)
| Transformed (transform : value) (child : element).

(** [d.add(i)] *)
Definition add (d : element) (i : element) : element :=
  match d with
  | Built f a k l => Built f a k (l ++ [i])
  | Transformed t c => Transformed t c
  end.

(** ** Contexts *)

(** [SLContext]: the scope expressions are evaluated in, the children that
    will be added to the enclosing displayable, the keywords assembled for
    it, and the style prefix. *)
Module SLContext.
Record t := Make {
  scope : dict;
  children : list element;
  keywords : dict;
  style_prefix : string;
}.

(** [SLContext()] *)
Definition root : t :=
  {| scope := ∅; children := []; keywords := ∅; style_prefix := "" |}.

(** [SLContext(parent)]: every field refers to the parent's. *)
Definition derive (parent : t) : t :=
  {| scope := scope parent; children := children parent;
     keywords := keywords parent; style_prefix := style_prefix parent |}.

Definition set_scope (d : dict) (c : t) : t :=
  {| scope := d; children := children c; keywords := keywords c;
     style_prefix := style_prefix c |}.
Definition set_children (l : list element) (c : t) : t :=
  {| scope := scope c; children := l; keywords := keywords c;
     style_prefix := style_prefix c |}.
Definition set_keywords (d : dict) (c : t) : t :=
  {| scope := scope c; children := children c; keywords := d;
     style_prefix := style_prefix c |}.
Definition set_style_prefix (p : string) (c : t) : t :=
  {| scope := scope c; children := children c; keywords := keywords c;
     style_prefix := p |}.
End SLContext.

(** What [execute] reaches outside the tree and the context:
    [renpy.ui.screen.widget_properties], [renpy.ui.screen.widgets] (an
    association list, the latest binding of an id first) and
    [renpy.ui.imagemap_stack] (its top first). *)
Record ui := {
  widget_properties : gmap string dict;
  widgets : list (value * element);
  imagemap_stack : list element;
}.

(** ** Nodes *)

(** The keyword part of an [SLBlock]: the declared [keyword] list and the
    two attributes [SLBlock.prepare] sets. *)
Record keyword_fields := {
  keyword : list (string * string);
  keyword_values : attr (option dict);
  keyword_exprs : attr (option bytecode);
}.

(** The positional part of an [SLDisplayable]. *)
Record positional_fields := {
  positional : list string;
  positional_values : attr (option (list value));
  positional_exprs : attr (option bytecode);
}.

(** The arguments of [SLDisplayable.__init__]. *)
Record displayable_fields := {
  displayable : string;
  scope : bool;
  child_or_fixed : bool;
  style : option string;
  pass_context : bool;
  imagemap : bool;
}.

(** The node classes.  An attribute a class only sets in [prepare] (or only
    when [SLNode.__init__] runs, for [serial]) is an [attr].  The
    [prepared_entries] of an [SLIf] pair a compiled condition with the very
    block object of [entries]; the model keeps the compiled conditions, in
    order, and reads the block at the same index of [entries]. *)
Inductive node :=
| SLBlock (serial : attr nat) (kw : keyword_fields) (children : list node)
| SLDisplayable (serial : attr nat) (init : displayable_fields)
    (pos : positional_fields) (kw : keyword_fields) (children : list node)
| SLIf (serial : attr nat) (entries : list (option string * node))
    (prepared_entries : attr (list (option bytecode)))
| SLFor (serial : attr nat) (variable expression : string)
    (expression_value : attr value) (expression_expr : attr (option bytecode))
    (kw : keyword_fields) (children : list node)
| SLPython (serial : attr nat) (code : string)
| SLPass (serial : attr nat)
| SLDefault (serial : attr nat) (variable expression : string)
    (expr : attr bytecode).

(** *** Construction *)

(** The module global [serial] is threaded through the constructors. *)

(** [SLNode.__init__]: [serial += 1; self.serial = serial]. *)
Definition SLNode_init (serial : nat) : nat * attr nat :=
  (S serial, Some (S serial)).

(** [object.__init__]: nothing. *)
Definition object_init (serial : nat) : nat * attr nat := (serial, None).

Definition no_keywords : keyword_fields :=
  {| keyword := []; keyword_values := None; keyword_exprs := None |}.

(** [SLBlock.__init__]: [class SLBlock(object)], so
    [super(SLBlock, self).__init__()] is [object.__init__]. *)
Definition SLBlock_init (serial : nat) : nat * node :=
  let '(serial, self_serial) := object_init serial in
  (serial, SLBlock self_serial no_keywords []).

(** [SLDisplayable.__init__]: [super(SLDisplayable, self).__init__()] is
    [SLBlock.__init__]. *)
Definition SLDisplayable_init (init : displayable_fields) (serial : nat)
  : nat * node :=
  let '(serial, self_serial) := object_init serial in
  (serial,
   SLDisplayable self_serial init
     {| positional := []; positional_values := None;
        positional_exprs := None |} no_keywords []).

(** [SLIf.__init__]: [super(SLIf, self).__init__()] is [SLNode.__init__]. *)
Definition SLIf_init (serial : nat) : nat * node :=
  let '(serial, self_serial) := SLNode_init serial in
  (serial, SLIf self_serial [] None).

(** [SLFor.__init__]: [class SLFor(SLBlock)]. *)
Definition SLFor_init (variable expression : string) (serial : nat)
  : nat * node :=
  let '(serial, self_serial) := object_init serial in
  (serial, SLFor self_serial variable expression None None no_keywords []).

(** [SLPython.__init__]: [super(SLNode, self).__init__()] starts the lookup
    after [SLNode], at [object]. *)
Definition SLPython_init (code : string) (serial : nat) : nat * node :=
  let '(serial, self_serial) := object_init serial in
  (serial, SLPython self_serial code).

(** [SLPass] has no [__init__] of its own: [SLNode.__init__] runs. *)
Definition SLPass_init (serial : nat) : nat * node :=
  let '(serial, self_serial) := SLNode_init serial in
  (serial, SLPass self_serial).

(** [SLDefault.__init__] calls no other [__init__]. *)
Definition SLDefault_init (variable expression : string) (serial : nat)
  : nat * node :=
  (serial, SLDefault None variable expression None).

(** [self.serial] *)
Definition serial_of (self : node) : attr nat :=
  match self with
  | SLBlock s _ _ | SLDisplayable s _ _ _ _ | SLIf s _ _
  | SLFor s _ _ _ _ _ _ | SLPython s _ | SLPass s | SLDefault s _ _ _ => s
  end.

(** ** The collaborators outside this file *)

(** What a call into the host comes back with: a value or an exception. *)
Inductive outcome (A : Type) :=
| Returns (a : A)
| Raises (e : exn).
Arguments Returns {A} a.
Arguments Raises {A} e.

Definition from_host {A} (o : outcome A) : result A :=
  match o with
  | Returns a => Ok a
  | Raises e => Raise e
  end.

(** [renpy.python], [renpy.sl2.pyutil], [renpy.style], the construction
    functions and the transforms are outside [slast.py]; the development is
    parametric in them. *)
Class Host := {
  (** [renpy.python.py_compile(expr, 'eval', ast_node=True)] *)
  host_compile : string → outcome ast;
  (** [renpy.sl2.pyutil.is_constant(node)] *)
  host_is_constant : ast → bool;
  (** the value of an expression of the user, under the scope as the call of
      [renpy.python.py_eval_bytecode] passes it *)
  host_eval : string → scope_arg → outcome value;
  (** [renpy.python.py_exec_bytecode(bytecode, locals=scope)]: the scope
      afterwards *)
  host_exec : string → dict → outcome dict;
  (** [renpy.style.get_style(name)] *)
  host_get_style : string → outcome value;
  (** what calling [self.displayable] on the positional and keyword
      arguments does to [renpy.ui.imagemap_stack], or the exception it
      raises *)
  host_displayable : string → list value → dict → list element →
                     outcome (list element);
  (** [transform(d)] *)
  host_transform : value → element → outcome element;
  (** the sentinel is private to [slast.py]: no expression of the user
      evaluates to it *)
  host_eval_private : ∀ src sc, host_eval src sc ≠ Returns use_expression;
}.

Section Slast.
Context `{Host}.

(** The calls into the host, as the source writes them. *)
Definition py_compile (expr : string) : result ast :=
  from_host (host_compile expr).
Definition is_constant (node : ast) : bool := host_is_constant node.
Definition eval_expr (src : string) (sc : scope_arg) : result value :=
  from_host (host_eval src sc).
Definition py_exec_bytecode (code : string) (locals : dict) : result dict :=
  from_host (host_exec code locals).
Definition get_style (name : string) : result value :=
  from_host (host_get_style name).
Definition call_displayable (displayable : string) (positional : list value)
    (keywords : dict) (imagemap_stack : list element)
  : result (list element) :=
  from_host (host_displayable displayable positional keywords imagemap_stack).
Definition call_transform (transform : value) (d : element) : result element :=
  from_host (host_transform transform d).

(** Python's [eval] on the nodes this file builds.  A dict display binds
    its keys from left to right, a later binding of a key replacing an
    earlier one. *)
Definition dict_display (ks vs : list value) : result dict :=
  foldl (λ acc kv, d ← acc;
                   match kv.1 with
                   | VStr s => Ok (<[s := kv.2]> d)
                   | _ => Raise TypeError
                   end) (Ok ∅) (zip ks vs).

Fixpoint eval_ast (node : ast) (sc : scope_arg) {struct node} : result value :=
  match node with
  | Num n => Ok (VInt n)
  | Str s => Ok (VStr s)
  | Tuple elts =>
      vs ← traverse (λ e, eval_ast e sc) elts;
      Ok (VTuple vs)
  | Dict keys values =>
      ks ← traverse (λ e, eval_ast e sc) keys;
      vs ← traverse (λ e, eval_ast e sc) values;
      d ← dict_display ks vs;
      Ok (VDict d)
  | Expr src => eval_expr src sc
  end.

(** [compile_expr(node)] *)
Definition compile_expr (node : ast) : bytecode := Code node.

(** [py_eval_bytecode(bytecode, ...)] *)
Definition py_eval_bytecode (bc : bytecode) (sc : scope_arg) : result value :=
  match bc with Code body => eval_ast body sc end.

(** ** [prepare] *)

(** The loop of [SLBlock.prepare] over [self.keyword]: a constant keyword
    is evaluated into [keyword_values], any other is appended to
    [keyword_keys] and [keyword_exprs]. *)
Fixpoint keyword_loop (l : list (string * string)) (keyword_values : dict)
    (keyword_keys keyword_exprs : list ast)
  : result (dict * list ast * list ast) :=
  match l with
  | [] => Ok (keyword_values, keyword_keys, keyword_exprs)
  | (k, expr) :: l' =>
      node ← py_compile expr;
      if is_constant node then
        v ← py_eval_bytecode (compile_expr node) Unscoped;
        keyword_loop l' (<[k := v]> keyword_values) keyword_keys keyword_exprs
      else
        keyword_loop l' keyword_values (keyword_keys ++ [Str k])
          (keyword_exprs ++ [node])
  end.

(** [SLBlock.prepare], on the children as the caller's [prepare] does
    them. *)
Definition SLBlock_prepare (prepare : node → result node)
    (kw : keyword_fields) (children : list node)
  : result (keyword_fields * list node) :=
  children' ← traverse prepare children;
  '(values, keys, exprs) ← keyword_loop (keyword kw) ∅ [] [];
  Ok ({| keyword := keyword kw;
         keyword_values := Some (if is_empty values then None else Some values);
         keyword_exprs :=
           Some (match keys with
                 | [] => None
                 | _ :: _ => Some (compile_expr (Dict keys exprs))
                 end) |},
      children').

(** The loop of [SLDisplayable.prepare] over [self.positional]. *)
Fixpoint positional_loop (l : list string) (exprs : list ast)
    (values : list value) (has_exprs has_values : bool)
  : result (list ast * list value * bool * bool) :=
  match l with
  | [] => Ok (exprs, values, has_exprs, has_values)
  | a :: l' =>
      node ← py_compile a;
      if is_constant node then
        v ← py_eval_bytecode (compile_expr node) Unscoped;
        positional_loop l' (exprs ++ [Num 0]) (values ++ [v]) has_exprs true
      else
        positional_loop l' (exprs ++ [node]) (values ++ [use_expression])
          true has_values
  end.

(** The positional part of [SLDisplayable.prepare]. *)
Definition prepare_positional (pos : positional_fields)
  : result positional_fields :=
  '(exprs, values, has_exprs, has_values) ←
    positional_loop (positional pos) [] [] false false;
  Ok {| positional := positional pos;
        positional_values :=
          Some (if has_values : bool then Some values else None);
        positional_exprs :=
          Some (if has_exprs : bool then Some (compile_expr (Tuple exprs))
                else None) |}.

(** One round of the loop of [SLIf.prepare]: [py_compile(cond, 'eval')]
    gives the byte code of the expression; the block is prepared in
    place. *)
Definition prepare_entry (prepare : node → result node)
    (entry : option string * node)
  : result (option bytecode * (option string * node)) :=
  cond ← match entry.1 with
         | Some c => node ← py_compile c; Ok (Some (compile_expr node))
         | None => Ok None
         end;
  block ← prepare entry.2;
  Ok (cond, (entry.1, block)).

Fixpoint prepare (self : node) {struct self} : result node :=
  match self with
  | SLBlock serial kw children =>
      '(kw, children) ← SLBlock_prepare prepare kw children;
      Ok (SLBlock serial kw children)
  | SLDisplayable serial init pos kw children =>
      '(kw, children) ← SLBlock_prepare prepare kw children;
      pos ← prepare_positional pos;
      Ok (SLDisplayable serial init pos kw children)
  | SLIf serial entries _ =>
      prepared ← traverse (prepare_entry prepare) entries;
      Ok (SLIf serial (map snd prepared) (Some (map fst prepared)))
  | SLFor serial variable expression _ _ kw children =>
      node ← py_compile expression;
      '(value, expr) ←
        (if is_constant node then
           v ← py_eval_bytecode (compile_expr node) Unscoped; Ok (v, None)
         else Ok (VNone, Some (compile_expr node)));
      '(kw, children) ← SLBlock_prepare prepare kw children;
      Ok (SLFor serial variable expression (Some value) (Some expr) kw children)
  | SLPython serial code => Ok (SLPython serial code)
  | SLPass serial => Ok (SLPass serial)
  | SLDefault serial variable expression _ =>
      node ← py_compile expression;
      Ok (SLDefault serial variable expression (Some (compile_expr node)))
  end.

(** ** [keywords] *)

(** [context.keywords.update(v)] *)
Definition update_keywords (v : value) (context : SLContext.t)
  : result SLContext.t :=
  match v with
  | VDict d =>
      Ok (SLContext.set_keywords (d ∪ SLContext.keywords context) context)
  | _ => Raise TypeError
  end.

(** The [style_group] part of [SLBlock.keywords]: the key is popped, and
    when it was given the style prefix is [style_group + "_"], or the empty
    string for [None]. *)
Definition apply_style_group (context : SLContext.t) : result SLContext.t :=
  match SLContext.keywords context !! "style_group" with
  | None => Ok context
  | Some style_group =>
      let context :=
        SLContext.set_keywords
          (delete "style_group" (SLContext.keywords context)) context in
      match style_group with
      | VNone => Ok (SLContext.set_style_prefix "" context)
      | VStr s => Ok (SLContext.set_style_prefix (s +:+ "_") context)
      | _ => Raise TypeError
      end
  end.

(** [SLBlock.keywords], [keywords] being the method of the children.  The
    keyword expressions are evaluated by [py_eval_bytecode(keyword_exprs)]:
    no scope is passed. *)
Definition SLBlock_keywords
    (keywords : node → SLContext.t → result SLContext.t)
    (kw : keyword_fields) (children : list node) (context : SLContext.t)
  : result SLContext.t :=
  values ← getattr (keyword_values kw);
  context ← match values with
            | Some d => update_keywords (VDict d) context
            | None => Ok context
            end;
  exprs ← getattr (keyword_exprs kw);
  context ← match exprs with
            | Some bc =>
                v ← py_eval_bytecode bc Unscoped; update_keywords v context
            | None => Ok context
            end;
  context ← apply_style_group context;
  foldM keywords children context.

(** The condition of an entry of an [SLIf]:
    [cond is None or py_eval_bytecode(cond, locals=context.scope)]. *)
Definition entry_holds (cond : option bytecode) (context : SLContext.t)
  : result bool :=
  match cond with
  | None => Ok true
  | Some bc =>
      v ← py_eval_bytecode bc (Locals (SLContext.scope context));
      Ok (truthy v)
  end.

(** [SLIf.keywords]: the loop over [self.prepared_entries]. *)
Definition SLIf_keywords (keywords : node → SLContext.t → result SLContext.t)
    (context : SLContext.t)
  : list (option string * node) → list (option bytecode) →
    result SLContext.t :=
  fix scan entries conds {struct entries} :=
    match entries, conds with
    | (_, block) :: entries', cond :: conds' =>
        b ← entry_holds cond context;
        if b : bool then keywords block context else scan entries' conds'
    | _, _ => Ok context
    end.

(** The method [keywords] of each class: [SLDisplayable] inherits the one
    of [SLBlock], [SLFor] overrides it by [return], [SLPython], [SLPass] and
    [SLDefault] inherit the one of [SLNode], which does nothing. *)
Fixpoint keywords (self : node) (context : SLContext.t) {struct self}
  : result SLContext.t :=
  match self with
  | SLBlock _ kw children | SLDisplayable _ _ _ kw children =>
      SLBlock_keywords keywords kw children context
  | SLIf _ entries prepared_entries =>
      conds ← getattr prepared_entries;
      SLIf_keywords keywords context entries conds
  | SLFor _ _ _ _ _ _ _ | SLPython _ _ | SLPass _ | SLDefault _ _ _ _ =>
      Ok context
  end.

(** ** [execute] *)

(** [b if (a is use_expression) else a] *)
Definition choose (a b : value) : value :=
  match a with use_expression => b | _ => a end.

(** The first part of [SLDisplayable.execute], [# Evaluate the positional
    arguments]: the list or tuple [positional], and whether it is the very
    list stored in [self.positional_values]. *)
Definition evaluate_positional (pos : positional_fields) (scope : dict)
  : result (value * bool) :=
  values ← getattr (positional_values pos);
  exprs ← getattr (positional_exprs pos);
  match values, exprs with
  | Some ((_ :: _) as stored), Some bc =>
      v ← py_eval_bytecode bc (Positional scope);
      vs ← iterate v;
      Ok (VList (zip_with choose stored vs), false)
  | Some ((_ :: _) as stored), None => Ok (VList stored, true)
  | _, Some bc =>
      v ← py_eval_bytecode bc (Locals scope);
      Ok (v, false)
  | _, None => Ok (VList [], false)
  end.

(** [positional.insert(0, ctx)]: a tuple has no [insert]. *)
Definition insert_context (ctx : SLContext.t) (positional : value)
  : result value :=
  match positional with
  | VList l =>
      Ok (VList (VContext (SLContext.scope ctx) (SLContext.keywords ctx)
                          (SLContext.style_prefix ctx) :: l))
  | _ => Raise AttributeError
  end.

(** A non-empty string is true. *)
Definition style_name (style : option string) : option string :=
  match style with
  | Some "" => None
  | _ => style
  end.

(** [widget_id in screen.widget_properties]: the table is keyed by
    strings; a list or a dict cannot be hashed. *)
Definition widget_overrides (widget_id : value) (u : ui)
  : result (option dict) :=
  match widget_id with
  | VStr s => Ok (widget_properties u !! s)
  | VList _ | VDict _ => Raise TypeError
  | _ => Ok None
  end.

(** What [SLDisplayable.execute] has in hand when it calls
    [self.displayable]: the positional and keyword arguments, the context
    [ctx] of the node, the popped [id] and [at], and the node's own
    positional fields as the call leaves them. *)
Record call := {
  passed_positional : list value;
  passed_keywords : dict;
  node_ctx : SLContext.t;
  widget_id : value;
  transform : value;
  node_pos : positional_fields;
}.

(** [SLDisplayable.execute] up to the call of [self.displayable].  The
    local [keywords] of the source, [kwds] here, is the dict [ctx.keywords]:
    [ctx] has it at the end.  The local [positional] may be the list
    [self.positional_values], and then the insertion of the context is an
    insertion into that list. *)
Definition SLDisplayable_arguments (init : displayable_fields)
    (pos : positional_fields) (kw : keyword_fields) (children : list node)
    (context : SLContext.t) (u : ui) : result call :=
  let declared := positional pos in
  '(positional, stored) ← evaluate_positional pos (SLContext.scope context);
  let ctx := SLContext.derive context in
  let ctx := SLContext.set_keywords ∅ ctx in
  let ctx := SLContext.set_children [] ctx in
  ctx ← SLBlock_keywords keywords kw children ctx;
  positional ← (if pass_context init then insert_context ctx positional
                else Ok positional);
  let pos := if pass_context init && stored
             then {| positional := declared;
                     positional_values :=
                       Some (match positional with
                             | VList l => Some l
                             | _ => None
                             end);
                     positional_exprs := positional_exprs pos |}
             else pos in
  let kwds := SLContext.keywords ctx in
  kwds ← match kwds !! "style", style_name (style init) with
         | None, Some name =>
             st ← get_style (SLContext.style_prefix ctx +:+ name);
             Ok (<["style" := st]> kwds)
         | _, _ => Ok kwds
         end;
  let kwds := if scope init
              then <["scope" := VDict (SLContext.scope ctx)]> kwds
              else kwds in
  let id := default VNone (kwds !! "id") in
  let kwds := delete "id" kwds in
  let at_ := default VNone (kwds !! "at") in
  let kwds := delete "at" kwds in
  overrides ← widget_overrides id u;
  let kwds := match overrides with
              | Some d => d ∪ kwds
              | None => kwds
              end in
  args ← iterate positional;
  Ok {| passed_positional := args; passed_keywords := kwds;
        node_ctx := SLContext.set_keywords kwds ctx; widget_id := id;
        transform := at_; node_pos := pos |}.

(** [SLBlock.execute]: the children in turn, on the context and the outside
    as the one before left them. *)
Definition SLBlock_execute
    (execute : node → SLContext.t → ui → result (node * SLContext.t * ui))
  : list node → SLContext.t → ui → result (list node * SLContext.t * ui) :=
  fix go children context u :=
    match children with
    | [] => Ok ([], context, u)
    | i :: children' =>
        '(i, context, u) ← execute i context u;
        '(children', context, u) ← go children' context u;
        Ok (i :: children', context, u)
    end.

(** [SLIf.execute]: the loop over [self.prepared_entries]. *)
Definition SLIf_execute
    (execute : node → SLContext.t → ui → result (node * SLContext.t * ui))
    (context : SLContext.t) (u : ui)
  : list (option string * node) → list (option bytecode) →
    result (list (option string * node) * SLContext.t * ui) :=
  fix scan entries conds {struct entries} :=
    match entries, conds with
    | (c, block) :: entries', cond :: conds' =>
        b ← entry_holds cond context;
        if b : bool then
          '(block, context, u) ← execute block context u;
          Ok ((c, block) :: entries', context, u)
        else
          '(entries', context, u) ← scan entries' conds';
          Ok ((c, block) :: entries', context, u)
    | _, _ => Ok (entries, context, u)
    end.

(** The iterable of [SLFor.execute]: the value of [self.expression_expr] in
    the scope when there is one, [self.expression_value] otherwise. *)
Definition SLFor_value (expression_value : attr value)
    (expression_expr : attr (option bytecode)) (context : SLContext.t)
  : result value :=
  expr ← getattr expression_expr;
  match expr with
  | Some bc => py_eval_bytecode bc (Locals (SLContext.scope context))
  | None => getattr expression_value
  end.

(** [context.scope[variable] = i] *)
Definition bind_variable (variable : string) (i : value) (c : SLContext.t)
  : SLContext.t :=
  SLContext.set_scope (<[variable := i]> (SLContext.scope c)) c.

(** The loop of [SLFor.execute]: [context.scope[variable] = i], then
    [SLBlock.execute(self, context)]. *)
Definition SLFor_loop
    (execute : node → SLContext.t → ui → result (node * SLContext.t * ui))
    (variable : string)
  : list value → list node → SLContext.t → ui →
    result (list node * SLContext.t * ui) :=
  fix go value children context u :=
    match value with
    | [] => Ok (children, context, u)
    | i :: value' =>
        let context := bind_variable variable i context in
        '(children, context, u) ← SLBlock_execute execute children context u;
        go value' children context u
    end.

(** [renpy.ui.imagemap_stack.pop()] *)
Definition pop_imagemap (u : ui) : result ui :=
  match imagemap_stack u with
  | [] => Raise IndexError
  | _ :: stack =>
      Ok {| widget_properties := widget_properties u; widgets := widgets u;
            imagemap_stack := stack |}
  end.

(** The method [execute] of each class, as far as [fuel] nested calls.  A
    call returns the node as it leaves it, the context as it leaves it, and
    the outside.  The context [ctx] an [SLDisplayable] derives shares its
    scope with [context]: what the children do to it is written back. *)
Fixpoint execute (fuel : nat) (self : node) (context : SLContext.t) (u : ui)
  : result (node * SLContext.t * ui) :=
  match fuel with
  | 0 => OutOfFuel
  | S fuel =>
      match self with
      | SLBlock serial kw children =>
          '(children, context, u) ←
            SLBlock_execute (execute fuel) children context u;
          Ok (SLBlock serial kw children, context, u)
      | SLDisplayable serial init pos kw children =>
          c ← SLDisplayable_arguments init pos kw children context u;
          stack ← call_displayable (displayable init) (passed_positional c)
                     (passed_keywords c) (imagemap_stack u);
          let u := {| widget_properties := widget_properties u;
                      widgets := widgets u; imagemap_stack := stack |} in
          let d := Built (displayable init) (passed_positional c)
                     (passed_keywords c) [] in
          '(children, ctx, u) ←
            SLBlock_execute (execute fuel) children (node_ctx c) u;
          let d := foldl add d (SLContext.children ctx) in
          let u := match widget_id c with
                   | VNone => u
                   | id => {| widget_properties := widget_properties u;
                              widgets := (id, d) :: widgets u;
                              imagemap_stack := imagemap_stack u |}
                   end in
          d ← match transform c with
              | VNone => Ok d
              | t => call_transform t d
              end;
          let context :=
            SLContext.set_children (SLContext.children context ++ [d])
              (SLContext.set_scope (SLContext.scope ctx) context) in
          u ← (if imagemap init then pop_imagemap u else Ok u);
          Ok (SLDisplayable serial init (node_pos c) kw children, context, u)
      | SLIf serial entries prepared_entries =>
          conds ← getattr prepared_entries;
          '(entries, context, u) ←
            SLIf_execute (execute fuel) context u entries conds;
          Ok (SLIf serial entries prepared_entries, context, u)
      | SLFor serial variable expression expression_value expression_expr
              kw children =>
          value ← SLFor_value expression_value expression_expr context;
          value ← iterate value;
          '(children, context, u) ←
            SLFor_loop (execute fuel) variable value children context u;
          Ok (SLFor serial variable expression expression_value
                expression_expr kw children, context, u)
      | SLPython serial code =>
          scope ← py_exec_bytecode code (SLContext.scope context);
          Ok (self, SLContext.set_scope scope context, u)
      | SLPass serial => Ok (self, context, u)
      | SLDefault serial variable expression expr =>
          match SLContext.scope context !! variable with
          | Some _ => Ok (self, context, u)
          | None =>
              bc ← getattr expr;
              v ← py_eval_bytecode bc (Locals (SLContext.scope context));
              Ok (self,
                  SLContext.set_scope
                    (<[variable := v]> (SLContext.scope context)) context,
                  u)
          end
      end
  end.

End Slast.

(** * The vocabulary of the properties *)

Section Vocabulary.
Context `{Host}.

(** Two contexts with the same scope and the same children. *)
Definition same_scope_children (c c' : SLContext.t) : Prop :=
  SLContext.scope c' = SLContext.scope c
  ∧ SLContext.children c' = SLContext.children c.

(** The context an [SLDisplayable] derives: the scope and the style prefix
    of the caller, a new keyword mapping and a new children list. *)
Definition derived (context : SLContext.t) : SLContext.t :=
  {| SLContext.scope := SLContext.scope context;
     SLContext.children := [];
     SLContext.keywords := ∅;
     SLContext.style_prefix := SLContext.style_prefix context |}.

(** A compiled condition that is present and evaluates to a false value in
    the scope of the context. *)
Definition fails (context : SLContext.t) (cond : option bytecode) : Prop :=
  entry_holds cond context = Ok false.

(** The value of a declared positional expression: the constant [prepare]
    computes, without a scope, or the value in the scope of the run. *)
Definition declared_value (scope : dict) (a : string) : result value :=
  node ← py_compile a;
  if is_constant node then py_eval_bytecode (compile_expr node) Unscoped
  else py_eval_bytecode (compile_expr node) (Positional scope).

(** The context [c'] is [c] with elements appended to its children, and
    possibly another scope. *)
Definition appended (c c' : SLContext.t) (new : list element) : Prop :=
  SLContext.children c' = SLContext.children c ++ new
  ∧ SLContext.keywords c' = SLContext.keywords c
  ∧ SLContext.style_prefix c' = SLContext.style_prefix c.

(** A call that only appends to the children of the context and leaves its
    keywords and style prefix alone. *)
Definition appends (ex : node → SLContext.t → ui →
                         result (node * SLContext.t * ui)) : Prop :=
  ∀ self c u self' c' u',
    ex self c u = Ok (self', c', u') → ∃ new, appended c c' new.

(** The iterations of a loop, one for each element in the order of the
    iterable: the variable is bound to the element in the scope the
    iteration before left, the body runs on the children, the context and
    the outside the iteration before left, and [new] is what it appends to
    the children of the context. *)
Inductive iterations
    (body : list node → SLContext.t → ui →
            result (list node * SLContext.t * ui)) (variable : string)
  : list value → list node * SLContext.t * ui → list (list element) →
    list node * SLContext.t * ui → Prop :=
| iterations_done s : iterations body variable [] s [] s
| iterations_step i vs children c u children1 c1 u1 new news s :
    body children (bind_variable variable i c) u = Ok (children1, c1, u1) →
    SLContext.children c1 = SLContext.children c ++ new →
    iterations body variable vs (children1, c1, u1) news s →
    iterations body variable (i :: vs) (children, c, u) (new :: news) s.

(** The context [c] with another scope and other children. *)
Definition reframe (scope : dict) (children : list element) (c : SLContext.t)
  : SLContext.t :=
  {| SLContext.scope := scope; SLContext.children := children;
     SLContext.keywords := SLContext.keywords c;
     SLContext.style_prefix := SLContext.style_prefix c |}.

(** A pass that reads neither the scope nor the children of the context. *)
Definition frame_blind (f : SLContext.t → result SLContext.t) : Prop :=
  ∀ scope children c,
    f (reframe scope children c) = (c' ← f c; Ok (reframe scope children c')).

(** The keyword pass over the node reaches no conditional, and no block
    with a keyword that is not a constant. *)
Fixpoint constant_keywords (self : node) : bool :=
  match self with
  | SLBlock _ kw children | SLDisplayable _ _ _ kw children =>
      match keyword_exprs kw with
      | Some None => forallb constant_keywords children
      | _ => false
      end
  | SLIf _ _ _ => false
  | SLFor _ _ _ _ _ _ _ | SLPython _ _ | SLPass _ | SLDefault _ _ _ _ => true
  end.

(** A call that returned or raised: it did not stop for lack of fuel. *)
Definition settled {A} (r : result A) : Prop := r ≠ OutOfFuel.

(** The number of nested calls of [execute] a tree needs. *)
Fixpoint depth (self : node) : nat :=
  match self with
  | SLBlock _ _ children | SLDisplayable _ _ _ _ children
  | SLFor _ _ _ _ _ _ children => S (max_list (depth <$> children))
  | SLIf _ entries _ => S (max_list ((λ entry, depth entry.2) <$> entries))
  | SLPython _ _ | SLPass _ | SLDefault _ _ _ _ => 1
  end.

(** [execute] leaves the shape of the tree alone. *)
Definition keeps_depth (ex : node → SLContext.t → ui →
                             result (node * SLContext.t * ui)) : Prop :=
  ∀ self c u self' c' u',
    ex self c u = Ok (self', c', u') → depth self' = depth self.

(** A call that is settled on every tree of depth at most [n]. *)
Definition settles (n : nat)
    (ex : node → SLContext.t → ui → result (node * SLContext.t * ui))
  : Prop :=
  ∀ self c u, depth self ≤ n → settled (ex self c u).

(** [ex'] does what [ex] does wherever [ex] is settled. *)
Definition extends
    (ex ex' : node → SLContext.t → ui → result (node * SLContext.t * ui))
  : Prop :=
  ∀ self c u, settled (ex self c u) → ex' self c u = ex self c u.

(** The positional fields for which [execute] takes the stored list itself
    as [positional]: constant positional expressions only, at least one. *)
Definition stored_list (pos : positional_fields) : bool :=
  match positional_values pos, positional_exprs pos with
  | Some (Some (_ :: _)), Some None => true
  | _, _ => false
  end.

(** A tree with a displayable that passes the context in front of its
    stored positional list. *)
Fixpoint inserts_context (self : node) : bool :=
  match self with
  | SLDisplayable _ init pos _ children =>
      pass_context init && stored_list pos || existsb inserts_context children
  | SLBlock _ _ children | SLFor _ _ _ _ _ _ children =>
      existsb inserts_context children
  | SLIf _ entries _ => existsb (λ entry, inserts_context entry.2) entries
  | SLPython _ _ | SLPass _ | SLDefault _ _ _ _ => false
  end.

(** A call that returns the tree as it was, unless the tree has such a
    displayable. *)
Definition keeps_tree (ex : node → SLContext.t → ui →
                            result (node * SLContext.t * ui)) : Prop :=
  ∀ self c u self' c' u',
    inserts_context self = false →
    ex self c u = Ok (self', c', u') → self' = self.



(** [self.children] of a block, a displayable or a loop. *)
Definition children_of (self : node) : list node :=
  match self with
  | SLBlock _ _ children | SLDisplayable _ _ _ _ children
  | SLFor _ _ _ _ _ _ children => children
  | SLIf _ _ _ | SLPython _ _ | SLPass _ | SLDefault _ _ _ _ => []
  end.

(** A call after which [prepare] does what it did before: it leaves every
    declared expression of the tree as it was. *)
Definition keeps_declarations
    (ex : node → SLContext.t → ui → result (node * SLContext.t * ui))
  : Prop :=
  ∀ self c u self' c' u',
    ex self c u = Ok (self', c', u') → prepare self' = prepare self.



(** A declared expression that compiles and is not a constant. *)
Definition dynamic (a : string) : Prop :=
  ∃ node, py_compile a = Ok node ∧ is_constant node = false.


(** [d[k] = v] for each pair of a list, in order. *)
Definition bind_all (l : list (string * value)) (d : dict) : dict :=
  foldl (λ d kv, <[kv.1 := kv.2]> d) d l.

(** A declared keyword: whether its expression is a constant, and the name
    with the value of the expression, evaluated as [SLBlock.prepare] and
    [SLBlock.keywords] do, without a scope. *)
Definition keyword_value (decl : string * string)
  : result (bool * (string * value)) :=
  node ← py_compile decl.2;
  v ← py_eval_bytecode (compile_expr node) Unscoped;
  Ok (is_constant node, (decl.1, v)).

(** The constants, and the others, among evaluated declarations. *)
Definition constants (vals : list (bool * (string * value)))
  : list (string * value) := snd <$> List.filter fst vals.
Definition expressions (vals : list (bool * (string * value)))
  : list (string * value) := snd <$> List.filter (λ x, negb x.1) vals.

End Vocabulary.

(** * A host and nodes to run the model on *)

(** ** A small host

    Literals are constants; any other expression is a name, looked up in the
    scope the call passes; a construction function called [imagemap] pushes
    on the imagemap stack. *)
Module Toy.

Definition literal (src : string) : option value :=
  if String.eqb src "None" then Some VNone
  else if String.eqb src "1" then Some (VInt 1)
  else if String.eqb src "5" then Some (VInt 5)
  else if String.eqb src "'red'" then Some (VStr "red")
  else if String.eqb src "'w'" then Some (VStr "w")
  else if String.eqb src "[1, 2, 3]"
       then Some (VList [VInt 1; VInt 2; VInt 3])
  else if String.eqb src "[7]" then Some (VList [VInt 7])
  else None.

Definition compile (src : string) : outcome ast :=
  if String.eqb src "" then Raises SyntaxError else Returns (Expr src).

Definition constant (node : ast) : bool :=
  match node with
  | Num _ | Str _ => true
  | Expr src => bool_decide (is_Some (literal src))
  | _ => false
  end.

Definition name (src : string) (scope : dict) : outcome value :=
  match scope !! src with
  | Some use_expression | None => Raises (NameError src)
  | Some v => Returns v
  end.

Definition eval (src : string) (sc : scope_arg) : outcome value :=
  match literal src with
  | Some v => Returns v
  | None =>
      match sc with
      | Unscoped => Raises (NameError src)
      | Positional scope | Locals scope => name src scope
      end
  end.

Definition exec (code : string) (scope : dict) : outcome dict :=
  if String.eqb code "x = 0" then Returns (<["x" := VInt 0]> scope)
  else Returns scope.

Definition build (f : string) (args : list value) (kwargs : dict)
    (stack : list element) : outcome (list element) :=
  if String.eqb f "imagemap" then Returns (Built f args kwargs [] :: stack)
  else Returns stack.

Lemma eval_private src sc : eval src sc ≠ Returns use_expression.
Proof.
  unfold eval, literal.
  repeat (case_match; [congruence|]).
  destruct sc; try congruence; unfold name;
    repeat (case_match; try congruence).
Qed.

#[export] Instance host : Host := {|
  host_compile := compile;
  host_is_constant := constant;
  host_eval := eval;
  host_exec := exec;
  host_get_style := λ name, Returns (VObject name);
  host_displayable := build;
  host_transform := λ t d, Returns (Transformed t d);
  host_eval_private := eval_private;
|}.

End Toy.

(** ** Nodes, contexts and screens to run *)

(** A construction function with no option set; declared positional and
    keyword expressions before [prepare]; no override, no widget, no
    imagemap. *)
Definition flags (f : string) : displayable_fields :=
  {| displayable := f; scope := false; child_or_fixed := false;
     style := None; pass_context := false; imagemap := false |}.

Definition declared (l : list string) : positional_fields :=
  {| positional := l; positional_values := None; positional_exprs := None |}.

Definition given (l : list (string * string)) : keyword_fields :=
  {| keyword := l; keyword_values := None; keyword_exprs := None |}.

Definition no_ui : ui :=
  {| widget_properties := ∅; widgets := []; imagemap_stack := [] |}.

(** [vbox: text 'red'], the box with [id 'w'], run in a context that already
    has a keyword and a child. *)
Definition busy : SLContext.t :=
  {| SLContext.scope := {["a" := VInt 1]};
     SLContext.children := [Built "null" [] ∅ []];
     SLContext.keywords := {["k" := VInt 5]};
     SLContext.style_prefix := "pref_" |}.

Definition text_red : node :=
  SLDisplayable None (flags "text")
    {| positional := ["'red'"];
       positional_values := Some (Some [VStr "red"]);
       positional_exprs := Some None |}
    {| keyword := []; keyword_values := Some None;
       keyword_exprs := Some None |} [].

Definition vbox_text : node :=
  SLDisplayable None (flags "vbox")
    {| positional := []; positional_values := Some None;
       positional_exprs := Some None |}
    {| keyword := [("id", "'w'")];
       keyword_values := Some (Some {["id" := VStr "w"]});
       keyword_exprs := Some None |}
    [text_red].

(** [text id 'w' color 'red'] under an override table that maps [w] to
    [color := 'blue']. *)
Definition text_w : node :=
  SLDisplayable None (flags "text")
    {| positional := []; positional_values := Some None;
       positional_exprs := Some None |}
    {| keyword := [("id", "'w'"); ("color", "'red'")];
       keyword_values :=
         Some (Some (<["id" := VStr "w"]> {["color" := VStr "red"]}));
       keyword_exprs := Some None |} [].

Definition blue_ui : ui :=
  {| widget_properties := {["w" := {["color" := VStr "blue"]}]};
     widgets := []; imagemap_stack := [] |}.

(** An override table whose entry for [w] has an [id] of its own. *)
Definition id_ui : ui :=
  {| widget_properties := {["w" := {["id" := VStr "z"]}]};
     widgets := []; imagemap_stack := [] |}.

(** [if a: text 'red' elif b: text 5 else: text 1], with [a] false and [b]
    true. *)
Definition text_of (src : string) (v : value) : node :=
  SLDisplayable None (flags "text")
    {| positional := [src]; positional_values := Some (Some [v]);
       positional_exprs := Some None |}
    {| keyword := []; keyword_values := Some None;
       keyword_exprs := Some None |} [].

Definition block_of (children : list node) : node :=
  SLBlock None
    {| keyword := []; keyword_values := Some None;
       keyword_exprs := Some None |} children.

Definition if_a_elif_b : node :=
  SLIf (Some 1)
    ([(Some "a", block_of [text_of "'red'" (VStr "red")])]
     ++ (Some "b", block_of [text_of "5" (VInt 5)])
     :: [(None, block_of [text_of "1" (VInt 1)])])
    (Some ([Some (Code (Expr "a"))] ++ Some (Code (Expr "b")) :: [None])).

Definition a_false_b_true : SLContext.t :=
  SLContext.set_scope (<["a" := VBool false]> {["b" := VBool true]})
    SLContext.root.

(** A tree with every node class, as declared. *)
Definition every_class : node :=
  SLDisplayable None (flags "vbox") (declared ["'red'"; "t"])
    (given [("id", "'w'"); ("color", "c")])
    [SLDefault None "y" "5" None;
     SLPython None "x = 0";
     SLPass (Some 2);
     SLFor None "i" "[1, 2, 3]" None None (given [])
       [SLIf (Some 1)
          [(Some "a", SLBlock None (given [("style_group", "'w'")]) []);
           (None, SLBlock None (given []) [])] None]].

(** [for x in [1, 2, 3]: text x] *)
Definition text_x : node :=
  SLDisplayable None (flags "text")
    {| positional := ["x"]; positional_values := Some None;
       positional_exprs := Some (Some (Code (Tuple [Expr "x"]))) |}
    {| keyword := []; keyword_values := Some None;
       keyword_exprs := Some None |} [].

Definition no_keyword : keyword_fields :=
  {| keyword := []; keyword_values := Some None; keyword_exprs := Some None |}.

Definition for_x_text_x : node :=
  SLFor None "x" "[1, 2, 3]" (Some (VList [VInt 1; VInt 2; VInt 3]))
    (Some None) no_keyword [text_x].

(** [for x in [1, 2, 3]: for x in [7]: pass]: the body rebinds the loop
    variable, and the scope maps [x] to 7 after the loop, not to 3. *)
Definition for_x_for_x : node :=
  SLFor None "x" "[1, 2, 3]" (Some (VList [VInt 1; VInt 2; VInt 3]))
    (Some None) no_keyword
    [SLFor None "x" "[7]" (Some (VList [VInt 7])) (Some None) no_keyword
       [SLPass (Some 1)]].

(** Three displayables with constant arguments only, each run in the empty
    scope and in a scope with [a] and [b]: [text 'red'] with the scope
    passed as a keyword, [text 'red'] with the context passed, and [text
    'red'] with a conditional child that gives [color 'red'] if [b]. *)
Definition constant_red : positional_fields :=
  {| positional := ["'red'"]; positional_values := Some (Some [VStr "red"]);
     positional_exprs := Some None |}.

Definition with_scope : displayable_fields :=
  {| displayable := "text"; scope := true; child_or_fixed := false;
     style := None; pass_context := false; imagemap := false |}.

Definition with_context : displayable_fields :=
  {| displayable := "text"; scope := false; child_or_fixed := false;
     style := None; pass_context := true; imagemap := false |}.

Definition if_b_color : node :=
  SLIf (Some 1)
    [(Some "b",
      SLBlock None
        {| keyword := [("color", "'red'")];
           keyword_values := Some (Some {["color" := VStr "red"]});
           keyword_exprs := Some None |} [])]
    (Some [Some (Code (Expr "b"))]).

(** ** More nodes and screens to run *)

(** A block with [style_group 'w'] and [color 'red']. *)
Definition group_w : node :=
  SLBlock None
    {| keyword := [("style_group", "'w'"); ("color", "'red'")];
       keyword_values :=
         Some (Some (<["style_group" := VStr "w"]> {["color" := VStr "red"]}));
       keyword_exprs := Some None |} [].


(** [default y = 5] *)
Definition default_y : node := SLDefault None "y" "5" (Some (Code (Expr "5"))).



(** [text style_group 'w'] with the style [text]. *)
Definition text_style : displayable_fields :=
  {| displayable := "text"; scope := false; child_or_fixed := false;
     style := Some "text"; pass_context := false; imagemap := false |}.

Definition group_kw : keyword_fields :=
  {| keyword := [("style_group", "'w'")];
     keyword_values := Some (Some {["style_group" := VStr "w"]});
     keyword_exprs := Some None |}.

(** [vbox: text 'red' color 'red'] *)
Definition color_kw : keyword_fields :=
  {| keyword := [("color", "'red'")];
     keyword_values := Some (Some {["color" := VStr "red"]});
     keyword_exprs := Some None |}.

Definition vbox_text_color : node :=
  SLDisplayable None (flags "vbox")
    {| positional := []; positional_values := Some None;
       positional_exprs := Some None |} no_keyword
    [SLDisplayable None (flags "text") constant_red color_kw []].

(** ** A host with a store

    The small host, but an expression evaluated without a scope is looked
    up in a store, where [c] is ['blue']. *)
Module Stored.

Definition store : dict := {["c" := VStr "blue"]}.

Definition eval (src : string) (sc : scope_arg) : outcome value :=
  match Toy.literal src with
  | Some v => Returns v
  | None =>
      match sc with
      | Unscoped => Toy.name src store
      | Positional scope | Locals scope => Toy.name src scope
      end
  end.

Lemma store_eval_private src sc : eval src sc ≠ Returns use_expression.
Proof.
  unfold eval, Toy.literal.
  repeat (case_match; [congruence|]).
  destruct sc; unfold Toy.name; repeat (case_match; try congruence).
Qed.

Definition host : Host := {|
  host_compile := Toy.compile;
  host_is_constant := Toy.constant;
  host_eval := eval;
  host_exec := Toy.exec;
  host_get_style := λ name, Returns (VObject name);
  host_displayable := Toy.build;
  host_transform := λ t d, Returns (Transformed t d);
  host_eval_private := store_eval_private;
|}.

End Stored.

(** * Properties *)

(** ** Reasoning on calls that return *)

Lemma bind_Ok {A B} (m : result A) (f : A → result B) (b : B) :
  m ≫= f = Ok b → ∃ a, m = Ok a ∧ f a = Ok b.
Proof. destruct m; simpl; intros E; try discriminate. eauto. Qed.

Lemma getattr_Ok {A} (a : attr A) (x : A) : getattr a = Ok x → a = Some x.
Proof. destruct a; simpl; congruence. Qed.

(** Split a hypothesis [x ← m; k = Ok r] into its two calls. *)
Ltac bind_inv E :=
  let a := fresh "r" in
  let E1 := fresh "E" in
  apply bind_Ok in E as (a & E1 & E);
  repeat match type of a with
         | (_ * _)%type => destruct a as [a ?]
         end;
  simpl in E.

(** Induction on a tree of nodes: the children of a block and the blocks of
    the entries of a conditional are smaller. *)
Lemma node_ind' (P : node → Prop) :
  (∀ serial kw children, Forall P children → P (SLBlock serial kw children)) →
  (∀ serial init pos kw children,
     Forall P children → P (SLDisplayable serial init pos kw children)) →
  (∀ serial entries prepared_entries,
     Forall (λ entry, P entry.2) entries →
     P (SLIf serial entries prepared_entries)) →
  (∀ serial variable expression value expr kw children,
     Forall P children →
     P (SLFor serial variable expression value expr kw children)) →
  (∀ serial code, P (SLPython serial code)) →
  (∀ serial, P (SLPass serial)) →
  (∀ serial variable expression expr,
     P (SLDefault serial variable expression expr)) →
  ∀ self, P self.
Proof.
  intros HBlock HDisplayable HIf HFor HPython HPass HDefault.
  fix IH 1. intros [].
  - apply HBlock. induction children; constructor; auto.
  - apply HDisplayable. induction children; constructor; auto.
  - apply HIf. induction entries as [|[] ?]; constructor; auto.
  - apply HFor. induction children; constructor; auto.
  - apply HPython.
  - apply HPass.
  - apply HDefault.
Qed.

(** ** Construction *)

(** C3: every node of every class should take a serial from the global
    counter when it is constructed.  [SLIf] and [SLPass] do; constructing an
    [SLBlock], an [SLDisplayable], an [SLFor], an [SLPython] or an
    [SLDefault] leaves the node without [serial] and the counter where it
    was. *)
Theorem serial_assigned_to_SLIf_and_SLPass_only (serial : nat) :
  (SLIf_init serial = (S serial, SLIf (Some (S serial)) [] None)
   ∧ SLPass_init serial = (S serial, SLPass (Some (S serial))))
  ∧ (∀ code,
       (SLPython_init code serial).1 = serial
       ∧ serial_of (SLPython_init code serial).2 = None)
  ∧ (∀ variable expression,
       (SLDefault_init variable expression serial).1 = serial
       ∧ serial_of (SLDefault_init variable expression serial).2 = None)
  ∧ ((SLBlock_init serial).1 = serial
     ∧ serial_of (SLBlock_init serial).2 = None)
  ∧ (∀ init,
       (SLDisplayable_init init serial).1 = serial
       ∧ serial_of (SLDisplayable_init init serial).2 = None)
  ∧ (∀ variable expression,
       (SLFor_init variable expression serial).1 = serial
       ∧ serial_of (SLFor_init variable expression serial).2 = None).
Proof. repeat split. Qed.

Section Properties.
Context `{Host}.

(** ** What the keyword pass leaves alone *)

Lemma update_keywords_frame v c c' :
  update_keywords v c = Ok c' → same_scope_children c c'.
Proof. destruct v; simpl; intros [= <-]; done. Qed.

Lemma apply_style_group_frame c c' :
  apply_style_group c = Ok c' → same_scope_children c c'.
Proof.
  unfold apply_style_group. destruct (_ !! _) as [[]|]; intros [= <-]; done.
Qed.

Lemma foldM_frame (f : node → SLContext.t → result SLContext.t) l :
  Forall (λ i, ∀ c c', f i c = Ok c' → same_scope_children c c') l →
  ∀ c c', foldM f l c = Ok c' → same_scope_children c c'.
Proof.
  induction 1 as [|i l Hi _ IH]; simpl; intros c c' E.
  - by simplify_eq.
  - bind_inv E. apply Hi in E0 as []. apply IH in E as [].
    split; congruence.
Qed.

Lemma SLBlock_keywords_frame f kw children :
  Forall (λ i, ∀ c c', f i c = Ok c' → same_scope_children c c') children →
  ∀ c c', SLBlock_keywords f kw children c = Ok c' → same_scope_children c c'.
Proof.
  intros Hchildren c c' E. unfold SLBlock_keywords in E.
  repeat match goal with
         | E : _ ≫= _ = Ok _ |- _ => bind_inv E
         | E : match ?x with _ => _ end = Ok _ |- _ => destruct x
         | E : update_keywords _ _ = Ok _ |- _ =>
             apply update_keywords_frame in E as []
         | E : apply_style_group _ = Ok _ |- _ =>
             apply apply_style_group_frame in E as []
         | E : foldM _ _ _ = Ok _ |- _ =>
             apply (foldM_frame _ _ Hchildren) in E as []
         | E : Ok _ = Ok _ |- _ => injection E as <-
         end; split; simpl in *; congruence.
Qed.

(** The keyword pass changes neither the scope nor the children of the
    context. *)
Lemma keywords_frame self :
  ∀ c c', keywords self c = Ok c' → same_scope_children c c'.
Proof.
  induction self as [? ? ? IH|? ? ? ? ? IH|? entries ? IH| | | |]
    using node_ind'; simpl; intros c c' E;
    try (injection E as <-; done);
    try (by eapply SLBlock_keywords_frame).
  bind_inv E. clear E0. revert r E.
  induction IH as [|[] ? Hblock _ IHentries]; simpl; intros conds E.
  - by injection E as <-.
  - destruct conds; [by injection E as <-|].
    bind_inv E. destruct r; eauto.
Qed.

(** ** The frame of [SLDisplayable.execute] *)

Lemma SLDisplayable_arguments_ctx init pos kw children context u c :
  SLDisplayable_arguments init pos kw children context u = Ok c →
  ∃ ctx, SLBlock_keywords keywords kw children (derived context) = Ok ctx
         ∧ same_scope_children (derived context) (node_ctx c)
         ∧ SLContext.style_prefix (node_ctx c) = SLContext.style_prefix ctx.
Proof.
  unfold SLDisplayable_arguments. intros E.
  apply bind_Ok in E as ([positional stored] & _ & E).
  apply bind_Ok in E as (ctx & Ectx & E). exists ctx. split; [done|].
  apply SLBlock_keywords_frame in Ectx as [Hs Hc];
    [|apply Forall_forall; intros; by eapply keywords_frame].
  repeat match goal with
         | E : _ ≫= _ = Ok _ |- _ => bind_inv E
         | E : match ?x with _ => _ end = Ok _ |- _ => destruct x
         | E : Ok _ = Ok _ |- _ => injection E as <-
         end; simpl; repeat case_match; simpl; done.
Qed.

(** C10: a call of [SLDisplayable.execute] that returns has appended exactly
    one element to the children of the caller's context and has left its
    keywords and its style prefix as they were.  The keywords of the node
    are assembled in, and its children run against, the derived context,
    which starts from a new keyword mapping and a new children list; the
    element appended is the one built, with the children of the derived
    context added to it, after the transform if there is one.  The scope is
    shared: the caller's scope afterwards is the one the children left. *)
Theorem SLDisplayable_execute_frame fuel serial init pos kw children
    context u self' context' u' :
  execute fuel (SLDisplayable serial init pos kw children) context u
    = Ok (self', context', u') →
  ∃ d c ctx children' ctx' u1 u2,
    SLContext.children context' = SLContext.children context ++ [d]
    ∧ SLContext.keywords context' = SLContext.keywords context
    ∧ SLContext.style_prefix context' = SLContext.style_prefix context
    ∧ SLDisplayable_arguments init pos kw children context u = Ok c
    ∧ SLBlock_keywords keywords kw children (derived context) = Ok ctx
    ∧ SLContext.scope (node_ctx c) = SLContext.scope context
    ∧ SLContext.children (node_ctx c) = []
    ∧ SLBlock_execute (execute (pred fuel)) children (node_ctx c) u1
      = Ok (children', ctx', u2)
    ∧ SLContext.scope context' = SLContext.scope ctx'
    ∧ (let built :=
         foldl add (Built (displayable init) (passed_positional c)
                      (passed_keywords c) []) (SLContext.children ctx') in
       match transform c with
       | VNone => d = built
       | t => call_transform t built = Ok d
       end).
Proof.
  destruct fuel as [|fuel]; [discriminate|]. simpl. intros E.
  apply bind_Ok in E as (c & Ec & E).
  apply bind_Ok in E as (stack & Estack & E).
  apply bind_Ok in E as ([[children' ctx'] u2] & Echildren & E).
  apply bind_Ok in E as (d & Ed & E).
  apply bind_Ok in E as (u3 & Eu & E).
  injection E as <- <- <-.
  destruct (SLDisplayable_arguments_ctx _ _ _ _ _ _ _ Ec)
    as (ctx & Ectx & [Hs Hc] & _).
  exists d, c, ctx, children', ctx'. eexists _, _.
  repeat split; try done.
  destruct (transform c); simpl; congruence.
Qed.

(** ** Reserved keywords and overrides *)

(** C8 (as amended): [SLDisplayable.execute] pops [id] and [at] from the
    keyword set before the call of the construction function, and merges
    the entry of the override table for the popped [id], when there is one,
    after that: the keyword arguments of the call are the assembled keywords
    [K] without [id] and [at], under the entry.  So the [id] and [at] of
    the node do not reach the call, where a key of that name is passed only
    if the override entry has it; and every key of the override entry is
    passed with the value of the entry, whatever the keyword set had for
    it: with [id] a string [w], [color] in the keyword set and the table
    mapping [w] to an entry with [color := v], the call has [color := v]. *)
Theorem SLDisplayable_execute_overrides fuel serial init pos kw children
    context u result :
  execute fuel (SLDisplayable serial init pos kw children) context u
    = Ok result →
  ∃ c ctx K overrides stack,
    SLDisplayable_arguments init pos kw children context u = Ok c
    ∧ call_displayable (displayable init) (passed_positional c)
        (passed_keywords c) (imagemap_stack u) = Ok stack
    ∧ SLBlock_keywords keywords kw children (derived context) = Ok ctx
    ∧ (∀ k, k ≠ "style" → k ≠ "scope" →
            K !! k = SLContext.keywords ctx !! k)
    ∧ widget_id c = default VNone (K !! "id")
    ∧ transform c = default VNone (K !! "at")
    ∧ widget_overrides (widget_id c) u = Ok overrides
    ∧ passed_keywords c
      = default ∅ overrides ∪ delete "at" (delete "id" K)
    ∧ (∀ k, k = "id" ∨ k = "at" →
            passed_keywords c !! k = overrides ≫= (.!! k))
    ∧ (∀ d k v, overrides = Some d → d !! k = Some v →
                passed_keywords c !! k = Some v)
    ∧ (∀ w d v, K !! "id" = Some (VStr w) → widget_properties u !! w = Some d →
                d !! "color" = Some v →
                passed_keywords c !! "color" = Some v).
Proof.
  destruct fuel as [|fuel]; [discriminate|]. simpl. intros E.
  apply bind_Ok in E as (c & Ec & E).
  apply bind_Ok in E as (stack & Estack & _).
  exists c. pose proof Ec as Ec'. unfold SLDisplayable_arguments in Ec'.
  apply bind_Ok in Ec' as ([positional stored] & _ & E).
  apply bind_Ok in E as (ctx & Ectx & E).
  apply bind_Ok in E as (positional' & _ & E).
  apply bind_Ok in E as (styled & Estyled & E).
  apply bind_Ok in E as (overrides & Eov & E).
  apply bind_Ok in E as (args & _ & E).
  injection E as <-. simpl in *.
  set (K := if scope init
            then <["scope":=VDict (SLContext.scope ctx)]> styled
            else styled) in *.
  assert (∀ k, k ≠ "style" → k ≠ "scope" →
               K !! k = SLContext.keywords ctx !! k) as HK.
  { intros k Hstyle Hscope. transitivity (styled !! k).
    - subst K. destruct (scope init); [by rewrite lookup_insert_ne|done].
    - clear -Estyled Hstyle.
      destruct (_ !! "style"); [by simplify_eq|].
      destruct (style_name _); [|by simplify_eq].
      apply bind_Ok in Estyled as (st & _ & [= <-]).
      by rewrite lookup_insert_ne. }
  assert (default ∅ overrides ∪ delete "at" (delete "id" K)
          = match overrides with
            | Some d => d ∪ delete "at" (delete "id" K)
            | None => delete "at" (delete "id" K)
            end) as Hpassed.
  { destruct overrides; simpl; [done|]. by rewrite (left_id_L ∅ (∪)). }
  exists ctx, K, overrides, stack.
  repeat split; try done.
  - by rewrite lookup_delete_ne.
  - intros k Hk. destruct overrides as [d|]; simpl.
    + rewrite lookup_union. destruct Hk as [-> | ->].
      * rewrite lookup_delete_ne, lookup_delete_eq by done.
        by destruct (d !! "id").
      * rewrite lookup_delete_eq. by destruct (d !! "at").
    + destruct Hk as [-> | ->].
      * by rewrite lookup_delete_ne, lookup_delete_eq.
      * by rewrite lookup_delete_eq.
  - intros d k v -> Hd. by apply lookup_union_Some_l.
  - intros w d v Hid Hw Hd. rewrite Hid in Eov. simpl in Eov.
    rewrite Hw in Eov. injection Eov as <-. by apply lookup_union_Some_l.
Qed.

(** ** Conditionals *)

Lemma SLIf_keywords_skip f context before conds_before :
  Forall2 (λ _ cond, fails context cond) before conds_before →
  ∀ after conds_after,
    SLIf_keywords f context (before ++ after) (conds_before ++ conds_after)
    = SLIf_keywords f context after conds_after.
Proof.
  induction 1 as [|[c block] cond ? ? Hcond _ IH]; intros; [done|].
  simpl. rewrite Hcond. simpl. apply IH.
Qed.

Lemma SLIf_execute_skip ex context u before conds_before :
  Forall2 (λ _ cond, fails context cond) before conds_before →
  ∀ after conds_after,
    SLIf_execute ex context u (before ++ after) (conds_before ++ conds_after)
    = '(entries, context', u') ←
        SLIf_execute ex context u after conds_after;
      Ok (before ++ entries, context', u').
Proof.
  induction 1 as [|[c block] cond ? ? Hcond _ IH]; intros.
  - simpl. by destruct (SLIf_execute _ _ _ _ _) as [[[]]| |].
  - simpl. rewrite Hcond. simpl. rewrite IH.
    by destruct (SLIf_execute _ _ _ _ _) as [[[]]| |].
Qed.

(** C4: [execute] and [keywords] of a prepared [SLIf] act on the first
    entry, in the declared order, whose condition is absent or evaluates to
    a true value in the scope, and on that entry only: when the conditions
    of the entries before it evaluate to false values, [execute] is
    [execute] of its block and [keywords] is [keywords] of its block,
    whatever the entries after it are (their conditions are not evaluated,
    their blocks do nothing); and when every condition evaluates to a false
    value neither pass does anything. *)
Theorem SLIf_first_match fuel serial before conds_before context u :
  Forall2 (λ _ cond, fails context cond) before conds_before →
  (∀ c block cond after conds_after,
     entry_holds cond context = Ok true →
     let self := SLIf serial (before ++ (c, block) :: after)
                   (Some (conds_before ++ cond :: conds_after)) in
     execute (S fuel) self context u
     = ('(block', context', u') ← execute fuel block context u;
        Ok (SLIf serial (before ++ (c, block') :: after)
              (Some (conds_before ++ cond :: conds_after)), context', u'))
     ∧ keywords self context = keywords block context)
  ∧ (let self := SLIf serial before (Some conds_before) in
     execute (S fuel) self context u = Ok (self, context, u)
     ∧ keywords self context = Ok context).
Proof.
  intros Hbefore. split.
  - intros c block cond after conds_after Hcond self. subst self. split.
    + simpl. rewrite SLIf_execute_skip by done. simpl. rewrite Hcond. simpl.
      by destruct (execute fuel block context u) as [[[]]| |].
    + simpl. rewrite SLIf_keywords_skip by done. simpl. by rewrite Hcond.
  - simpl. split.
    + rewrite <-(app_nil_r before) at 1. rewrite <-(app_nil_r conds_before) at 1.
      rewrite SLIf_execute_skip by done. simpl. by rewrite app_nil_r.
    + rewrite <-(app_nil_r before), <-(app_nil_r conds_before).
      by rewrite SLIf_keywords_skip.
Qed.

(** ** [prepare] twice *)

Lemma traverse_fixed {A} (f : A → result A) l :
  Forall (λ a, ∀ a', f a = Ok a' → f a' = Ok a') l →
  ∀ l', traverse f l = Ok l' → traverse f l' = Ok l'.
Proof.
  induction 1 as [|a l Ha _ IH]; simpl; intros l' E.
  - by injection E as <-.
  - apply bind_Ok in E as (a' & Ea & E). apply bind_Ok in E as (l1 & El & E).
    injection E as <-. simpl. by rewrite (Ha _ Ea), (IH _ El).
Qed.

Lemma SLBlock_prepare_fixed kw children kw' children' :
  Forall (λ i, ∀ i', prepare i = Ok i' → prepare i' = Ok i') children →
  SLBlock_prepare prepare kw children = Ok (kw', children') →
  SLBlock_prepare prepare kw' children' = Ok (kw', children').
Proof.
  unfold SLBlock_prepare. intros Hchildren E.
  apply bind_Ok in E as (l & El & E).
  apply bind_Ok in E as ([[values keys] exprs] & Eloop & E).
  injection E as <- <-. simpl.
  by rewrite (traverse_fixed _ _ Hchildren _ El), Eloop.
Qed.

Lemma prepare_positional_fixed pos pos' :
  prepare_positional pos = Ok pos' → prepare_positional pos' = Ok pos'.
Proof.
  unfold prepare_positional. intros E.
  apply bind_Ok in E as ([[[exprs values] has_exprs] has_values] & Eloop & E).
  injection E as <-. simpl. by rewrite Eloop.
Qed.

Lemma prepare_entries_fixed (entries : list (option string * node)) :
  Forall (λ entry, ∀ b, prepare entry.2 = Ok b → prepare b = Ok b) entries →
  ∀ prepared,
    traverse (prepare_entry prepare) entries = Ok prepared →
    traverse (prepare_entry prepare) (map snd prepared) = Ok prepared.
Proof.
  induction 1 as [|[cond block] l Hblock _ IH]; simpl; intros prepared E.
  - by injection E as <-.
  - apply bind_Ok in E as ([cond' [c block']] & Eentry & E).
    apply bind_Ok in E as (l' & El & E). injection E as <-. simpl.
    rewrite (IH _ El). unfold prepare_entry in *. simpl in *.
    apply bind_Ok in Eentry as (cond1 & Econd & E).
    apply bind_Ok in E as (block1 & Eblock & E).
    injection E as <- <- <-. by rewrite Econd, (Hblock _ Eblock).
Qed.

(** [prepare] reads the declared expressions only, and what it sets it sets
    anew: on a prepared tree it returns the same tree. *)
Lemma prepare_fixed self :
  ∀ self', prepare self = Ok self' → prepare self' = Ok self'.
Proof.
  induction self as [? ? ? IH|? ? ? ? ? IH|? entries ? IH|? ? ? ? ? ? ? IH| | |]
    using node_ind'; simpl; intros self' E.
  - apply bind_Ok in E as ([kw' children'] & Eblock & E).
    injection E as <-. simpl.
    by rewrite (SLBlock_prepare_fixed _ _ _ _ IH Eblock).
  - apply bind_Ok in E as ([kw' children'] & Eblock & E).
    apply bind_Ok in E as (pos' & Epos & E).
    injection E as <-. simpl.
    by rewrite (SLBlock_prepare_fixed _ _ _ _ IH Eblock),
         (prepare_positional_fixed _ _ Epos).
  - apply bind_Ok in E as (prepared & Eprepared & E).
    injection E as <-. simpl.
    by rewrite (prepare_entries_fixed _ IH _ Eprepared).
  - apply bind_Ok in E as (node & Enode & E).
    apply bind_Ok in E as ([v e] & Evalue & E).
    apply bind_Ok in E as ([kw' children'] & Eblock & E).
    injection E as <-. simpl.
    rewrite Enode. simpl. rewrite Evalue. simpl.
    by rewrite (SLBlock_prepare_fixed _ _ _ _ IH Eblock).
  - by injection E as <-.
  - by injection E as <-.
  - apply bind_Ok in E as (node & Enode & E).
    injection E as <-. simpl. by rewrite Enode.
Qed.

(** C9: [prepare] is idempotent on every node class.  [prepare] twice is
    [prepare] once: when [prepare] returns on a tree, [prepare] again
    returns the same prepared tree, and when it raises, so does the first of
    the two.  So [execute] and [keywords] after two rounds of [prepare] are
    [execute] and [keywords] after one: same children built, same keywords,
    same scope, on every context and at every depth. *)
Theorem prepare_twice self :
  (prepare self ≫= prepare) = prepare self
  ∧ ∀ fuel context u,
      (self2 ← prepare self ≫= prepare; execute fuel self2 context u)
      = (self1 ← prepare self; execute fuel self1 context u)
      ∧ (self2 ← prepare self ≫= prepare; keywords self2 context)
        = (self1 ← prepare self; keywords self1 context).
Proof.
  assert ((prepare self ≫= prepare) = prepare self) as Htwice.
  { destruct (prepare self) as [self1| |] eqn:E; simpl; [|done..].
    by apply (prepare_fixed self). }
  split; [done|]. intros. by rewrite Htwice.
Qed.

(** ** Positional arguments *)

Lemma eval_ast_private node sc : eval_ast node sc ≠ Ok use_expression.
Proof.
  destruct node; simpl; try discriminate.
  - by destruct (traverse _ _).
  - destruct (traverse _ keys); try done. simpl.
    destruct (traverse _ values); try done. simpl.
    by destruct (dict_display _ _).
  - unfold eval_expr. pose proof (host_eval_private src sc).
    destruct (host_eval src sc); simpl; congruence.
Qed.

Lemma choose_constant node v b :
  eval_ast node Unscoped = Ok v → choose v b = v.
Proof.
  intros E. destruct v; try done. by apply eval_ast_private in E.
Qed.

(** What the loop of [SLDisplayable.prepare] appends: one expression and
    one value for each declared expression, in the declared order, such
    that evaluating the expressions and choosing between the two gives the
    declared values. *)
Lemma positional_loop_spec l :
  ∀ exprs values has_exprs has_values exprs' values' has_exprs' has_values',
    positional_loop l exprs values has_exprs has_values
    = Ok (exprs', values', has_exprs', has_values') →
    ∃ E V,
      exprs' = exprs ++ E ∧ values' = values ++ V
      ∧ (l = [] → has_values' = has_values)
      ∧ (V = [] → l = [])
      ∧ ∀ scope,
          (bs ← traverse (λ e, eval_ast e (Positional scope)) E;
           Ok (zip_with choose V bs))
          = traverse (declared_value scope) l.
Proof.
  induction l as [|a l IH]; simpl; intros * E.
  - injection E as <- <- <- <-. exists [], [].
    by rewrite !app_nil_r.
  - apply bind_Ok in E as (node & Enode & E).
    destruct (is_constant node) eqn:Hconstant.
    + apply bind_Ok in E as (v & Ev & E).
      apply IH in E as (E' & V' & -> & -> & _ & _ & Hvalues).
      exists (Num 0 :: E'), (v :: V').
      rewrite <-!app_assoc. repeat split; try done.
      intros scope. simpl. rewrite <-Hvalues.
      unfold declared_value. rewrite Enode. simpl. rewrite Hconstant, Ev.
      simpl. destruct (traverse _ E'); simpl; try done.
      by rewrite (choose_constant node).
    + apply IH in E as (E' & V' & -> & -> & _ & _ & Hvalues).
      exists (node :: E'), (use_expression :: V').
      rewrite <-!app_assoc. repeat split; try done.
      intros scope. simpl. rewrite <-Hvalues.
      unfold declared_value. rewrite Enode. simpl. rewrite Hconstant.
      destruct (eval_ast node _); simpl; try done.
      by destruct (traverse _ E').
Qed.

(** C7: for an [SLDisplayable] whose declared positional expressions mix
    constants and other expressions, [execute] evaluates the one compiled
    tuple in the scope and takes each slot from it where the stored value is
    the sentinel and from the stored value otherwise: the positional list is
    the list of the values of the declared expressions in the declared
    order (the first exception of an expression, in that order, if one
    raises), and these are the positional arguments of the call, after the
    context when [pass_context] is set. *)
Theorem mixed_positional_in_declared_order pos pos' stored bc :
  prepare_positional pos = Ok pos' →
  positional_values pos' = Some (Some stored) →
  positional_exprs pos' = Some (Some bc) →
  (∀ scope,
     evaluate_positional pos' scope
     = (vs ← traverse (declared_value scope) (positional pos);
        Ok (VList vs, false)))
  ∧ (∀ init kw children context u c,
       SLDisplayable_arguments init pos' kw children context u = Ok c →
       ∃ front vs,
         traverse (declared_value (SLContext.scope context)) (positional pos)
         = Ok vs
         ∧ passed_positional c = front ++ vs
         ∧ length front = (if pass_context init then 1 else 0)).
Proof.
  intros E Hvalues Hexprs.
  assert (∀ scope,
            evaluate_positional pos' scope
            = (vs ← traverse (declared_value scope) (positional pos);
               Ok (VList vs, false))) as Hpositional.
  { unfold prepare_positional in E.
    apply bind_Ok in E as ([[[E' V] has_exprs] has_values] & Eloop & E).
    injection E as <-. simpl in *.
    destruct has_values; [|done]. destruct has_exprs; [|done].
    apply positional_loop_spec in Eloop as (E1 & V1 & -> & -> & He & HV & Hl).
    simpl in *. intros scope. rewrite <-Hl.
    unfold evaluate_positional. simpl.
    destruct V1 as [|v V1]; [by specialize (He (HV eq_refl))|].
    simpl. destruct (traverse _ _); done. }
  split; [done|].
  intros init kw children context u c Ec.
  unfold SLDisplayable_arguments in Ec.
  apply bind_Ok in Ec as ([positional stored'] & Epositional & Ec).
  rewrite Hpositional in Epositional.
  apply bind_Ok in Epositional as (vs & Evs & Epositional).
  injection Epositional as <- <-.
  apply bind_Ok in Ec as (ctx & _ & Ec).
  apply bind_Ok in Ec as (positional' & Einsert & Ec).
  apply bind_Ok in Ec as (styled & _ & Ec).
  apply bind_Ok in Ec as (overrides & _ & Ec).
  apply bind_Ok in Ec as (args & Eargs & Ec).
  injection Ec as <-. simpl.
  destruct (pass_context init); simpl in Einsert; injection Einsert as <-;
    simpl in Eargs; injection Eargs as <-.
  - by eexists [_], vs.
  - by exists [], vs.
Qed.

(** ** What [execute] does to the context of the caller *)

Lemma appended_refl c : appended c c [].
Proof. unfold appended. by rewrite app_nil_r. Qed.

Lemma appended_trans c1 c2 c3 new new' :
  appended c1 c2 new → appended c2 c3 new' → appended c1 c3 (new ++ new').
Proof.
  intros (? & ? & ?) (? & ? & ?). unfold appended. rewrite app_assoc.
  repeat split; congruence.
Qed.

Lemma appended_set_scope c c' new d :
  appended (SLContext.set_scope d c) c' new → appended c c' new.
Proof. done. Qed.

Lemma appended_scope c d : appended c (SLContext.set_scope d c) [].
Proof. unfold appended. simpl. by rewrite app_nil_r. Qed.

Lemma SLBlock_execute_appends ex :
  appends ex →
  ∀ children c u children' c' u',
    SLBlock_execute ex children c u = Ok (children', c', u') →
    ∃ new, appended c c' new.
Proof.
  intros Hex. induction children as [|i children IH]; simpl; intros * E.
  - injection E as <- <- <-. eauto using appended_refl.
  - apply bind_Ok in E as ([[i1 c1] u1] & Ei & E).
    apply bind_Ok in E as ([[l2 c2] u2] & El & E).
    injection E as <- <- <-.
    apply Hex in Ei as [? ?]. apply IH in El as [? ?].
    eauto using appended_trans.
Qed.

Lemma SLIf_execute_appends ex c u :
  appends ex →
  ∀ entries conds entries' c' u',
    SLIf_execute ex c u entries conds = Ok (entries', c', u') →
    ∃ new, appended c c' new.
Proof.
  intros Hex. induction entries as [|[cond block] entries IH]; simpl;
    intros conds entries' c' u' E.
  - injection E as <- <- <-. eauto using appended_refl.
  - destruct conds as [|cond' conds]; simpl in E.
    { injection E as <- <- <-. eauto using appended_refl. }
    apply bind_Ok in E as (b & Eb & E). destruct b.
    + apply bind_Ok in E as ([[b1 c1] u1] & Eblock & E).
      injection E as <- <- <-. eauto.
    + apply bind_Ok in E as ([[l1 c1] u1] & El & E).
      injection E as <- <- <-. eauto.
Qed.

Lemma SLFor_loop_appends ex variable :
  appends ex →
  ∀ vs children c u children' c' u',
    SLFor_loop ex variable vs children c u = Ok (children', c', u') →
    ∃ new, appended c c' new.
Proof.
  intros Hex. induction vs as [|i vs IH]; simpl; intros * E.
  - injection E as <- <- <-. eauto using appended_refl.
  - apply bind_Ok in E as ([[l1 c1] u1] & El & E).
    apply (SLBlock_execute_appends _ Hex) in El as [? ?%appended_set_scope].
    apply IH in E as [? ?]. eauto using appended_trans.
Qed.

(** [execute] of any node appends to the children of the context and
    leaves its keywords and its style prefix alone. *)
Lemma execute_appends fuel : appends (execute fuel).
Proof.
  induction fuel as [|fuel IH]; intros self c u self' c' u' E; [done|].
  destruct self; simpl in E.
  - apply bind_Ok in E as ([[l1 c1] u1] & El & E). injection E as <- <- <-.
    eauto using SLBlock_execute_appends.
  - apply bind_Ok in E as (a & _ & E).
    apply bind_Ok in E as (stack & _ & E).
    apply bind_Ok in E as ([[l1 c1] u1] & _ & E).
    apply bind_Ok in E as (d & _ & E).
    apply bind_Ok in E as (u2 & _ & E). injection E as <- <- <-.
    by exists [d].
  - apply bind_Ok in E as (conds & _ & E).
    apply bind_Ok in E as ([[l1 c1] u1] & El & E). injection E as <- <- <-.
    eauto using SLIf_execute_appends.
  - apply bind_Ok in E as (value & _ & E).
    apply bind_Ok in E as (vs & _ & E).
    apply bind_Ok in E as ([[l1 c1] u1] & El & E). injection E as <- <- <-.
    eapply SLFor_loop_appends; [exact IH|exact El].
  - apply bind_Ok in E as (scope & _ & E). injection E as <- <- <-.
    eauto using appended_scope.
  - injection E as <- <- <-. eauto using appended_refl.
  - destruct (_ !! _).
    + injection E as <- <- <-. eauto using appended_refl.
    + apply bind_Ok in E as (bc & _ & E). apply bind_Ok in E as (v & _ & E).
      injection E as <- <- <-. eauto using appended_scope.
Qed.

(** ** Loops *)

Lemma iterations_children body variable vs s news s' :
  iterations body variable vs s news s' →
  SLContext.children s'.1.2 = SLContext.children s.1.2 ++ concat news.
Proof.
  induction 1 as [|? ? ? ? ? ? ? ? ? ? ? _ Hnew _ IH]; simpl in *.
  - by rewrite app_nil_r.
  - by rewrite IH, Hnew, app_assoc.
Qed.

Lemma SLFor_loop_iterations ex variable :
  appends ex →
  ∀ vs children c u s,
    SLFor_loop ex variable vs children c u = Ok s
    ↔ ∃ news,
        iterations (SLBlock_execute ex) variable vs (children, c, u) news s.
Proof.
  intros Hex. induction vs as [|i vs IH]; simpl; intros children c u s.
  - split.
    + intros [= <-]. exists []. constructor.
    + intros [news Hnews]. by inversion Hnews.
  - split.
    + intros E. apply bind_Ok in E as ([[children1 c1] u1] & Ebody & E).
      destruct (SLBlock_execute_appends _ Hex _ _ _ _ _ _ Ebody)
        as (new & Hnew & _).
      apply IH in E as [news Hnews].
      exists (new :: news). by econstructor.
    + intros [news Hnews]. inversion Hnews as [|? ? ? ? ? ? ? ? ? ? ? Ebody]; subst.
      rewrite Ebody. simpl.
      apply IH. eauto.
Qed.

Lemma SLFor_loop_last ex variable i :
  ∀ vs children c u,
    SLFor_loop ex variable (vs ++ [i]) children c u
    = '(children0, c0, u0) ← SLFor_loop ex variable vs children c u;
      SLBlock_execute ex children0 (bind_variable variable i c0) u0.
Proof.
  induction vs as [|j vs IH]; simpl; intros children c u.
  - by destruct (SLBlock_execute _ _ _ _) as [[[]]| |].
  - destruct (SLBlock_execute _ _ _ _) as [[[]]| |]; simpl; [|done..].
    apply IH.
Qed.

(** C5 (as amended): [execute] of a prepared [SLFor] resolves the iterable
    once, on entry, and then runs one iteration for each element in the
    order of the iterable: the loop variable is bound to the element in the
    shared scope, over what any earlier iteration left there, and the body
    runs against the same context, so that the children of the context
    afterwards are its children before followed by what each iteration
    appended, in the order of the iterations.  The scope afterwards is the
    one the last iteration left: it maps the loop variable to the last
    element when the body of the last iteration leaves that binding as it
    found it.  Over [[1, 2, 3]] binding [x], that is [x = 3] and the
    elements of the three iterations in order. *)
Theorem SLFor_execute_iterations fuel serial variable expression
    expression_value expression_expr kw children context u v vs :
  SLFor_value expression_value expression_expr context = Ok v →
  iterate v = Ok vs →
  let self := SLFor serial variable expression expression_value
                expression_expr kw children in
  let body := SLBlock_execute (execute fuel) in
  (∀ self' context' u',
     execute (S fuel) self context u = Ok (self', context', u')
     ↔ ∃ children' news,
         self' = SLFor serial variable expression expression_value
                   expression_expr kw children'
         ∧ iterations body variable vs (children, context, u) news
             (children', context', u'))
  ∧ (∀ children' news context' u',
       iterations body variable vs (children, context, u) news
         (children', context', u') →
       SLContext.children context'
       = SLContext.children context ++ concat news)
  ∧ (∀ vs0 i self' context' u',
       vs = vs0 ++ [i] →
       execute (S fuel) self context u = Ok (self', context', u') →
       ∃ children0 context0 u0 children',
         SLFor_loop (execute fuel) variable vs0 children context u
         = Ok (children0, context0, u0)
         ∧ body children0 (bind_variable variable i context0) u0
           = Ok (children', context', u')
         ∧ (SLContext.scope context' !! variable
            = SLContext.scope (bind_variable variable i context0) !! variable →
            SLContext.scope context' !! variable = Some i)).
Proof.
  intros Ev Evs self body. subst self body.
  assert (∀ r,
    execute (S fuel) (SLFor serial variable expression expression_value
                        expression_expr kw children) context u = Ok r
    ↔ ∃ children',
        r.1.1 = SLFor serial variable expression expression_value
                  expression_expr kw children'
        ∧ SLFor_loop (execute fuel) variable vs children context u
          = Ok (children', r.1.2, r.2)) as Hloop.
  { intros [[self' context'] u']. simpl. rewrite Ev. simpl. rewrite Evs. simpl.
    split.
    - intros E. apply bind_Ok in E as ([[children' c1] u1] & Eloop & E).
      injection E as <- <- <-. eauto.
    - intros (children' & -> & ->). done. }
  repeat split.
  - intros (children' & Hself & Eloop)%Hloop. simpl in *.
    apply SLFor_loop_iterations in Eloop as [news Hnews];
      [|apply execute_appends].
    eauto.
  - intros (children' & news & -> & Hnews). apply Hloop. simpl.
    exists children'. split; [done|].
    apply SLFor_loop_iterations; [apply execute_appends|eauto].
  - intros children' news context' u' Hnews.
    by apply iterations_children in Hnews.
  - intros vs0 i self' context' u' -> (children' & _ & Eloop)%Hloop.
    simpl in Eloop. rewrite SLFor_loop_last in Eloop.
    apply bind_Ok in Eloop as ([[children0 context0] u0] & Eloop0 & Ebody).
    exists children0, context0, u0, children'. repeat split; [done..|].
    intros ->. unfold bind_variable. simpl. apply lookup_insert_eq.
Qed.

(** ** Constant arguments *)

Lemma update_keywords_blind v : frame_blind (update_keywords v).
Proof. intros scope children c. by destruct v. Qed.

Lemma apply_style_group_blind : frame_blind apply_style_group.
Proof.
  intros scope children c. unfold apply_style_group. simpl.
  by destruct (_ !! _) as [[]|].
Qed.

Lemma foldM_blind (f : node → SLContext.t → result SLContext.t) l :
  Forall (λ i, frame_blind (f i)) l → frame_blind (foldM f l).
Proof.
  induction 1 as [|i l Hi _ IH]; intros scope children c; simpl; [done|].
  rewrite Hi. destruct (f i c); simpl; [apply IH|done..].
Qed.

Lemma style_group_children_blind
    (f : node → SLContext.t → result SLContext.t) children :
  Forall (λ i, frame_blind (f i)) children →
  frame_blind (λ c, c' ← apply_style_group c; foldM f children c').
Proof.
  intros Hchildren scope l c. rewrite apply_style_group_blind.
  destruct (apply_style_group c); simpl; [|done..].
  by apply foldM_blind.
Qed.

(** [SLBlock.keywords] evaluates its keyword expressions without the
    scope: on its own account it reads neither the scope nor the
    children. *)
Lemma SLBlock_keywords_blind f kw children :
  Forall (λ i, frame_blind (f i)) children →
  frame_blind (SLBlock_keywords f kw children).
Proof.
  intros Hchildren scope l c. unfold SLBlock_keywords.
  destruct (getattr (keyword_values kw)) as [[d|]| |]; simpl; try done;
    (destruct (getattr (keyword_exprs kw)) as [[bc|]| |]; simpl; try done);
    try (destruct (py_eval_bytecode bc Unscoped) as [[]| |]; simpl; try done);
    match goal with
    | |- _ = (apply_style_group ?c0 ≫= _) ≫= _ =>
        exact (style_group_children_blind f children Hchildren scope l c0)
    end.
Qed.

Lemma constant_children_blind children :
  Forall (λ i, constant_keywords i = true → frame_blind (keywords i))
    children →
  forallb constant_keywords children = true →
  Forall (λ i, frame_blind (keywords i)) children.
Proof.
  induction 1; simpl; intros Hall; constructor;
    apply andb_prop in Hall as []; auto.
Qed.

Lemma constant_keywords_blind self :
  constant_keywords self = true → frame_blind (keywords self).
Proof.
  induction self as [? ? ? IH|? ? ? ? ? IH| | | | |] using node_ind';
    simpl; intros Hconstant; try done;
    destruct (keyword_exprs kw) as [[]|]; try done;
    apply SLBlock_keywords_blind; by apply constant_children_blind.
Qed.

Lemma evaluate_positional_constant pos scope scope' :
  positional_exprs pos = Some None →
  evaluate_positional pos scope' = evaluate_positional pos scope.
Proof. unfold evaluate_positional. by intros ->. Qed.

(** C2 (as amended): for an [SLDisplayable] with neither [scope] nor
    [pass_context] set, whose positional and keyword expressions are all
    constants ([prepare] left neither [positional_exprs] nor
    [keyword_exprs]) and whose children contribute constant keywords only
    and through no conditional, two calls of [execute] against contexts that
    differ in their scope only call the construction function on the same
    positional and keyword arguments: if the first gets as far as the call,
    so does the second, with the same arguments. *)
Theorem constant_arguments_ignore_scope init pos kw children c1 c2 u a1 :
  scope init = false →
  pass_context init = false →
  positional_exprs pos = Some None →
  keyword_exprs kw = Some None →
  forallb constant_keywords children = true →
  SLContext.style_prefix c2 = SLContext.style_prefix c1 →
  SLDisplayable_arguments init pos kw children c1 u = Ok a1 →
  ∃ a2,
    SLDisplayable_arguments init pos kw children c2 u = Ok a2
    ∧ passed_positional a2 = passed_positional a1
    ∧ passed_keywords a2 = passed_keywords a1.
Proof.
  intros Hscope Hpass Hpos Hkw Hchildren Hprefix E.
  unfold SLDisplayable_arguments in *.
  rewrite (evaluate_positional_constant pos (SLContext.scope c1)) by done.
  destruct (evaluate_positional pos (SLContext.scope c1))
    as [[positional stored]| |]; simpl in *; try done.
  change (SLContext.set_children []
            (SLContext.set_keywords ∅ (SLContext.derive c1)))
    with (derived c1) in E.
  replace (SLContext.set_children []
             (SLContext.set_keywords ∅ (SLContext.derive c2)))
    with (reframe (SLContext.scope c2) [] (derived c1))
    by (unfold reframe, derived, SLContext.set_children,
          SLContext.set_keywords, SLContext.derive; simpl;
        by rewrite Hprefix).
  assert (frame_blind (SLBlock_keywords keywords kw children)) as Hblind.
  { apply SLBlock_keywords_blind, constant_children_blind; [|done].
    apply Forall_forall. intros i _. apply constant_keywords_blind. }
  rewrite Hblind.
  destruct (SLBlock_keywords keywords kw children (derived c1))
    as [ctx| |]; simpl in *; try done.
  rewrite Hpass, Hscope in *. simpl in *.
  destruct (match SLContext.keywords ctx !! "style" with
            | Some _ => _ | None => _ end) as [styled| |];
    simpl in *; try done.
  destruct (widget_overrides _ u) as [overrides| |]; simpl in *; try done.
  destruct (iterate positional) as [args| |]; simpl in *; try done.
  injection E as <-. eauto.
Qed.

(** The order of [SLBlock.keywords]: the constant keywords, then the value
    of the keyword expressions, over what the context has, a later merge
    replacing the keys of an earlier one; then [style_group]; then the
    children. *)
Lemma SLBlock_keywords_order kw children context constants bc dynamic :
  keyword_values kw = Some (Some constants) →
  keyword_exprs kw = Some (Some bc) →
  py_eval_bytecode bc Unscoped = Ok (VDict dynamic) →
  SLBlock_keywords keywords kw children context
  = (c ← apply_style_group
           (SLContext.set_keywords
              (dynamic ∪ (constants ∪ SLContext.keywords context)) context);
     foldM keywords children c).
Proof.
  intros Hvalues Hexprs Hdynamic.
  unfold SLBlock_keywords. rewrite Hvalues, Hexprs. simpl.
  by rewrite Hdynamic.
Qed.

(** C6: [SLBlock.keywords] should evaluate the keyword expressions against
    the current scope.  It calls [py_eval_bytecode(keyword_exprs)] without a
    scope: what it does to the keywords and the style prefix of the context
    is the same whatever the scope of the context is, and an exception it
    raises it raises whatever the scope is. *)
Theorem SLBlock_keywords_without_scope kw context scope :
  SLBlock_keywords keywords kw [] (SLContext.set_scope scope context)
  = (c ← SLBlock_keywords keywords kw [] context;
     Ok (SLContext.set_scope scope c)).
Proof.
  pose proof (SLBlock_keywords_blind keywords kw [] (Forall_nil_2 _) scope
                (SLContext.children context) context) as Hblind.
  etransitivity; [exact Hblind|]. clear Hblind.
  destruct (SLBlock_keywords keywords kw [] context) as [c| |] eqn:Ec;
    simpl; [|done..].
  apply SLBlock_keywords_frame in Ec as [_ Hchildren]; [|constructor].
  unfold reframe, SLContext.set_scope. by rewrite Hchildren.
Qed.

(** ** Fuel *)

Lemma settled_bind {A B} (m : result A) (f : A → result B) :
  settled m → (∀ a, m = Ok a → settled (f a)) → settled (m ≫= f).
Proof. destruct m; simpl; intros ? Hf; [by apply Hf|done..]. Qed.

Lemma settled_Ok {A} (a : A) : settled (Ok a).
Proof. done. Qed.

Lemma settled_Raise {A} e : settled (Raise e : result A).
Proof. done. Qed.

Lemma from_host_settled {A} (o : outcome A) : settled (from_host o).
Proof. by destruct o. Qed.

Lemma getattr_settled {A} (a : attr A) : settled (getattr a).
Proof. by destruct a. Qed.

Lemma iterate_settled v : settled (iterate v).
Proof. by destruct v. Qed.

Lemma traverse_settled {A B} (f : A → result B) l :
  Forall (λ a, settled (f a)) l → settled (traverse f l).
Proof.
  induction 1; simpl; [done|].
  apply settled_bind; [done|intros]. by apply settled_bind.
Qed.

Lemma foldM_settled {A S} (f : A → S → result S) l :
  Forall (λ a, ∀ s, settled (f a s)) l → ∀ s, settled (foldM f l s).
Proof.
  induction 1; simpl; intros s; [done|]. apply settled_bind; auto.
Qed.

Lemma ast_ind' (P : ast → Prop) :
  (∀ n, P (Num n)) → (∀ s, P (Str s)) →
  (∀ elts, Forall P elts → P (Tuple elts)) →
  (∀ keys values, Forall P keys → Forall P values → P (Dict keys values)) →
  (∀ src, P (Expr src)) →
  ∀ node, P node.
Proof.
  intros HNum HStr HTuple HDict HExpr. fix IH 1. intros [].
  - apply HNum.
  - apply HStr.
  - apply HTuple. induction elts; constructor; auto.
  - apply HDict; [induction keys|induction values]; constructor; auto.
  - apply HExpr.
Qed.

Lemma dict_display_settled ks vs : settled (dict_display ks vs).
Proof.
  unfold dict_display.
  assert (settled (Ok ∅ : result dict)) as Hacc by done. revert Hacc.
  generalize (Ok ∅ : result dict). generalize (zip ks vs).
  intros l. induction l as [|[k v] l IH]; simpl; intros acc Hacc; [done|].
  apply IH. apply settled_bind; [done|]. intros d _. by destruct k.
Qed.

Lemma eval_ast_settled node sc : settled (eval_ast node sc).
Proof.
  induction node as [| |elts IH|keys values IHk IHv|src] using ast_ind';
    simpl; try done.
  - apply settled_bind; [by apply traverse_settled|done].
  - apply settled_bind; [by apply traverse_settled|intros].
    apply settled_bind; [by apply traverse_settled|intros].
    apply settled_bind; [apply dict_display_settled|done].
  - apply from_host_settled.
Qed.

Lemma py_eval_bytecode_settled bc sc : settled (py_eval_bytecode bc sc).
Proof. destruct bc. apply eval_ast_settled. Qed.

(** A step of a proof that a call is settled. *)
Ltac settle :=
  repeat first
    [ done
    | apply settled_Ok
    | apply settled_Raise
    | apply from_host_settled
    | apply getattr_settled
    | apply iterate_settled
    | apply py_eval_bytecode_settled
    | apply eval_ast_settled
    | apply settled_bind; [|intros]
    | progress case_match ].

Lemma update_keywords_settled v c : settled (update_keywords v c).
Proof. by destruct v. Qed.

Lemma apply_style_group_settled c : settled (apply_style_group c).
Proof. unfold apply_style_group. settle. Qed.

Lemma SLBlock_keywords_settled f kw children :
  Forall (λ i, ∀ c, settled (f i c)) children →
  ∀ c, settled (SLBlock_keywords f kw children c).
Proof.
  intros Hchildren c. unfold SLBlock_keywords.
  apply settled_bind; [settle|intros].
  apply settled_bind; [destruct a; [apply update_keywords_settled|done]|intros].
  apply settled_bind; [settle|intros].
  apply settled_bind.
  { destruct a1; [|done]. apply settled_bind; [settle|intros].
    apply update_keywords_settled. }
  intros. apply settled_bind; [apply apply_style_group_settled|intros].
  by apply foldM_settled.
Qed.

Lemma entry_holds_settled cond c : settled (entry_holds cond c).
Proof. unfold entry_holds. settle. Qed.

(** The keyword pass needs no fuel. *)
Lemma keywords_settled self : ∀ c, settled (keywords self c).
Proof.
  induction self as [? ? ? IH|? ? ? ? ? IH|? entries ? IH| | | |]
    using node_ind'; simpl; intros c; try done;
    try (by apply SLBlock_keywords_settled).
  apply settled_bind; [settle|]. intros conds _. revert conds.
  induction IH as [|[] ? Hblock _ IHentries]; simpl; intros conds; [done|].
  destruct conds; [done|].
  apply settled_bind; [apply entry_holds_settled|]. intros [] _; auto.
Qed.

Lemma evaluate_positional_settled pos scope :
  settled (evaluate_positional pos scope).
Proof. unfold evaluate_positional. settle. Qed.

Lemma SLDisplayable_arguments_settled init pos kw children c u :
  settled (SLDisplayable_arguments init pos kw children c u).
Proof.
  unfold SLDisplayable_arguments.
  apply settled_bind; [apply evaluate_positional_settled|intros [] _].
  apply settled_bind.
  { apply SLBlock_keywords_settled, Forall_forall. intros.
    apply keywords_settled. }
  intros. unfold insert_context, widget_overrides, get_style. settle.
Qed.

Lemma SLBlock_execute_depth ex :
  keeps_depth ex →
  ∀ children c u children' c' u',
    SLBlock_execute ex children c u = Ok (children', c', u') →
    depth <$> children' = depth <$> children.
Proof.
  intros Hex. induction children as [|i children IH]; simpl; intros * E.
  - by injection E as <- <- <-.
  - apply bind_Ok in E as ([[i1 c1] u1] & Ei & E).
    apply bind_Ok in E as ([[l2 c2] u2] & El & E).
    injection E as <- <- <-. rewrite !fmap_cons.
    f_equal; [by eapply Hex|by eapply IH].
Qed.

Lemma SLIf_execute_depth ex c u :
  keeps_depth ex →
  ∀ entries conds entries' c' u',
    SLIf_execute ex c u entries conds = Ok (entries', c', u') →
    (λ entry, depth entry.2) <$> entries'
    = (λ entry, depth entry.2) <$> entries.
Proof.
  intros Hex. induction entries as [|[cond block] entries IH]; simpl;
    intros conds entries' c' u' E.
  - by injection E as <- <- <-.
  - destruct conds as [|cond' conds]; simpl in E.
    { by injection E as <- <- <-. }
    apply bind_Ok in E as (b & Eb & E). destruct b.
    + apply bind_Ok in E as ([[b1 c1] u1] & Eblock & E).
      injection E as <- <- <-. rewrite !fmap_cons. simpl.
      f_equal. by eapply Hex.
    + apply bind_Ok in E as ([[l1 c1] u1] & El & E).
      injection E as <- <- <-. rewrite !fmap_cons. f_equal. by eapply IH.
Qed.

Lemma SLFor_loop_depth ex variable :
  keeps_depth ex →
  ∀ vs children c u children' c' u',
    SLFor_loop ex variable vs children c u = Ok (children', c', u') →
    depth <$> children' = depth <$> children.
Proof.
  intros Hex. induction vs as [|i vs IH]; simpl; intros * E.
  - by injection E as <- <- <-.
  - apply bind_Ok in E as ([[l1 c1] u1] & El & E).
    apply (SLBlock_execute_depth _ Hex) in El. apply IH in E. congruence.
Qed.

Lemma execute_depth fuel : keeps_depth (execute fuel).
Proof.
  induction fuel as [|fuel IH]; intros self c u self' c' u' E; [done|].
  destruct self; simpl in E.
  - apply bind_Ok in E as ([[l1 c1] u1] & El & E). injection E as <- <- <-.
    simpl. by rewrite (SLBlock_execute_depth _ IH _ _ _ _ _ _ El).
  - apply bind_Ok in E as (a & _ & E).
    apply bind_Ok in E as (stack & _ & E).
    apply bind_Ok in E as ([[l1 c1] u1] & El & E).
    apply bind_Ok in E as (d & _ & E).
    apply bind_Ok in E as (u2 & _ & E). injection E as <- <- <-.
    simpl. by rewrite (SLBlock_execute_depth _ IH _ _ _ _ _ _ El).
  - apply bind_Ok in E as (conds & _ & E).
    apply bind_Ok in E as ([[l1 c1] u1] & El & E). injection E as <- <- <-.
    simpl. by rewrite (SLIf_execute_depth _ _ _ IH _ _ _ _ _ El).
  - apply bind_Ok in E as (value & _ & E).
    apply bind_Ok in E as (vs & _ & E).
    apply bind_Ok in E as ([[l1 c1] u1] & El & E). injection E as <- <- <-.
    simpl. by rewrite (SLFor_loop_depth _ _ IH _ _ _ _ _ _ _ El).
  - apply bind_Ok in E as (scope & _ & E). by injection E as <- <- <-.
  - by injection E as <- <- <-.
  - destruct (_ !! _).
    + by injection E as <- <- <-.
    + apply bind_Ok in E as (bc & _ & E). apply bind_Ok in E as (v & _ & E).
      by injection E as <- <- <-.
Qed.

Lemma SLBlock_execute_settled n ex :
  settles n ex →
  ∀ children c u,
    max_list (depth <$> children) ≤ n →
    settled (SLBlock_execute ex children c u).
Proof.
  intros Hex. induction children as [|i children IH]; simpl; intros c u Hn;
    [done|].
  apply settled_bind.
  { apply Hex. etransitivity; [apply Nat.le_max_l|exact Hn]. }
  intros [[i1 c1] u1] _. apply settled_bind; [|by intros [[l2 c2] u2] _].
  apply IH. etransitivity; [apply Nat.le_max_r|exact Hn].
Qed.

Lemma SLIf_execute_settled n ex c u :
  settles n ex →
  ∀ entries conds,
    max_list ((λ entry, depth entry.2) <$> entries) ≤ n →
    settled (SLIf_execute ex c u entries conds).
Proof.
  intros Hex. induction entries as [|[cond block] entries IH]; simpl;
    intros conds Hn; [done|].
  destruct conds as [|cond' conds]; [done|].
  apply settled_bind; [apply entry_holds_settled|]. intros [] _.
  - apply settled_bind; [|by intros [[b1 c1] u1] _].
    apply Hex. etransitivity; [apply Nat.le_max_l|exact Hn].
  - apply settled_bind; [|by intros [[l1 c1] u1] _].
    apply IH. etransitivity; [apply Nat.le_max_r|exact Hn].
Qed.

Lemma SLFor_loop_settled n ex variable :
  settles n ex → keeps_depth ex →
  ∀ vs children c u,
    max_list (depth <$> children) ≤ n →
    settled (SLFor_loop ex variable vs children c u).
Proof.
  intros Hex Hdepth. induction vs as [|i vs IH]; simpl; intros children c u Hn;
    [done|].
  apply settled_bind; [by eapply SLBlock_execute_settled|].
  intros [[l1 c1] u1] El. apply IH.
  by rewrite (SLBlock_execute_depth _ Hdepth _ _ _ _ _ _ El).
Qed.

Lemma pop_imagemap_settled u : settled (pop_imagemap u).
Proof. unfold pop_imagemap. by destruct (imagemap_stack u). Qed.

(** With as much fuel as the tree is deep, [execute] returns or raises. *)
Lemma execute_settled fuel : settles fuel (execute fuel).
Proof.
  induction fuel as [|fuel IH]; intros self c u Hdepth.
  { destruct self; simpl in Hdepth; lia. }
  pose proof (execute_depth fuel) as Hkeeps.
  destruct self; simpl in Hdepth |- *; try done.
  - apply settled_bind; [apply (SLBlock_execute_settled fuel); [done|lia]|].
    by intros [[l1 c1] u1] _.
  - apply settled_bind; [apply SLDisplayable_arguments_settled|intros a _].
    apply settled_bind; [apply from_host_settled|intros stack _].
    apply settled_bind; [apply (SLBlock_execute_settled fuel); [done|lia]|].
    intros [[l1 c1] u1] _.
    apply settled_bind.
    { destruct (transform a); try done; apply from_host_settled. }
    intros d _. apply settled_bind; [|done].
    destruct (imagemap init); [apply pop_imagemap_settled|done].
  - apply settled_bind; [apply getattr_settled|intros conds _].
    apply settled_bind; [apply (SLIf_execute_settled fuel); [done|lia]|].
    by intros [[l1 c1] u1] _.
  - apply settled_bind.
    { unfold SLFor_value. settle. }
    intros v _. apply settled_bind; [apply iterate_settled|intros vs _].
    apply settled_bind; [apply (SLFor_loop_settled fuel); [done..|lia]|].
    by intros [[l1 c1] u1] _.
  - apply settled_bind; [apply from_host_settled|done].
  - destruct (_ !! _); [done|]. settle.
Qed.

Lemma bind_extends {A B} (m m' : result A) (k k' : A → result B) :
  settled (m ≫= k) →
  (settled m → m' = m) →
  (∀ a, m = Ok a → settled (k a) → k' a = k a) →
  m' ≫= k' = m ≫= k.
Proof.
  intros Hsettled Hm Hk. destruct m as [a| |]; simpl in *; [| |done].
  - rewrite Hm by done. simpl. by apply Hk.
  - by rewrite Hm.
Qed.

Lemma SLBlock_execute_extends ex ex' :
  extends ex ex' →
  ∀ children c u,
    settled (SLBlock_execute ex children c u) →
    SLBlock_execute ex' children c u = SLBlock_execute ex children c u.
Proof.
  intros Hex. induction children as [|i children IH]; simpl; intros c u Hs;
    [done|].
  apply bind_extends; [done|apply Hex|]. intros [[i1 c1] u1] _ Hs1.
  apply bind_extends; [done|apply IH|done].
Qed.

Lemma SLIf_execute_extends ex ex' c u :
  extends ex ex' →
  ∀ entries conds,
    settled (SLIf_execute ex c u entries conds) →
    SLIf_execute ex' c u entries conds = SLIf_execute ex c u entries conds.
Proof.
  intros Hex. induction entries as [|[cond block] entries IH]; simpl;
    intros conds Hs; [done|].
  destruct conds as [|cond' conds]; [done|].
  apply bind_extends; [done..|]. intros [] _ Hs1.
  - apply bind_extends; [done|apply Hex|done].
  - apply bind_extends; [done|apply IH|done].
Qed.

Lemma SLFor_loop_extends ex ex' variable :
  extends ex ex' →
  ∀ vs children c u,
    settled (SLFor_loop ex variable vs children c u) →
    SLFor_loop ex' variable vs children c u
    = SLFor_loop ex variable vs children c u.
Proof.
  intros Hex. induction vs as [|i vs IH]; simpl; intros children c u Hs;
    [done|].
  apply bind_extends; [done|by apply SLBlock_execute_extends|].
  intros [[l1 c1] u1] _ Hs1. by apply IH.
Qed.

(** More fuel does not change a call that is settled. *)
Lemma execute_extends fuel : extends (execute fuel) (execute (S fuel)).
Proof.
  induction fuel as [|fuel IH]; intros self c u Hs; [done|].
  destruct self; try done.
  - change (execute (S (S fuel)) (SLBlock serial kw children) c u)
      with ('(children, context, u) ←
              SLBlock_execute (execute (S fuel)) children c u;
            Ok (SLBlock serial kw children, context, u)).
    simpl in Hs |- *.
    apply bind_extends; [done|by apply SLBlock_execute_extends|done].
  - simpl in Hs.
    change (execute (S (S fuel)) (SLDisplayable serial init pos kw children)
              c u) with
      (a ← SLDisplayable_arguments init pos kw children c u;
       stack ← call_displayable (displayable init) (passed_positional a)
                  (passed_keywords a) (imagemap_stack u);
       let u := {| widget_properties := widget_properties u;
                   widgets := widgets u; imagemap_stack := stack |} in
       let d := Built (displayable init) (passed_positional a)
                  (passed_keywords a) [] in
       '(children, ctx, u) ←
         SLBlock_execute (execute (S fuel)) children (node_ctx a) u;
       let d := foldl add d (SLContext.children ctx) in
       let u := match widget_id a with
                | VNone => u
                | id => {| widget_properties := widget_properties u;
                           widgets := (id, d) :: widgets u;
                           imagemap_stack := imagemap_stack u |}
                end in
       d ← match transform a with
           | VNone => Ok d
           | t => call_transform t d
           end;
       let context :=
         SLContext.set_children (SLContext.children c ++ [d])
           (SLContext.set_scope (SLContext.scope ctx) c) in
       u ← (if imagemap init then pop_imagemap u else Ok u);
       Ok (SLDisplayable serial init (node_pos a) kw children, context, u)).
    apply bind_extends; [done..|]. intros a _ Hs1.
    apply bind_extends; [done..|]. intros stack _ Hs2.
    apply bind_extends; [done|by apply SLBlock_execute_extends|done].
  - simpl in Hs.
    change (execute (S (S fuel)) (SLIf serial entries prepared_entries) c u)
      with (conds ← getattr prepared_entries;
            '(entries, context, u) ←
              SLIf_execute (execute (S fuel)) c u entries conds;
            Ok (SLIf serial entries prepared_entries, context, u)).
    apply bind_extends; [done..|]. intros conds _ Hs1.
    apply bind_extends; [done|by apply SLIf_execute_extends|done].
  - simpl in Hs.
    change (execute (S (S fuel))
              (SLFor serial variable expression expression_value
                 expression_expr kw children) c u)
      with (value ← SLFor_value expression_value expression_expr c;
            value ← iterate value;
            '(children, context, u) ←
              SLFor_loop (execute (S fuel)) variable value children c u;
            Ok (SLFor serial variable expression expression_value
                  expression_expr kw children, context, u)).
    apply bind_extends; [done..|]. intros v _ Hs1.
    apply bind_extends; [done..|]. intros vs _ Hs2.
    apply bind_extends; [done|by apply SLFor_loop_extends|done].
Qed.

(** Fuel is only a bound on the depth of the calls: with as much fuel as
    the tree is deep [execute] returns or raises, and with any more fuel it
    does the same. *)
Theorem execute_enough_fuel fuel self c u :
  depth self ≤ fuel →
  settled (execute fuel self c u)
  ∧ ∀ more, execute (fuel + more) self c u = execute fuel self c u.
Proof.
  intros Hdepth. pose proof (execute_settled fuel self c u Hdepth) as Hs.
  split; [done|]. intros more. induction more as [|more IH].
  - by rewrite Nat.add_0_r.
  - rewrite Nat.add_succ_r, <-IH. apply execute_extends. by rewrite IH.
Qed.

(** ** What [execute] leaves of the tree *)

Lemma evaluate_positional_stored pos scope positional stored :
  evaluate_positional pos scope = Ok (positional, stored) →
  stored = stored_list pos.
Proof.
  unfold evaluate_positional, stored_list. intros E.
  apply bind_Ok in E as (values & ->%getattr_Ok & E).
  apply bind_Ok in E as (exprs & ->%getattr_Ok & E).
  destruct values as [[|]|], exprs; simpl in E;
    repeat match goal with
           | E : _ ≫= _ = Ok _ |- _ =>
               apply bind_Ok in E as (? & _ & E); simpl in E
           end; by injection E as <- <-.
Qed.

Lemma SLDisplayable_arguments_pos init pos kw children c u a :
  SLDisplayable_arguments init pos kw children c u = Ok a →
  pass_context init && stored_list pos = false →
  node_pos a = pos.
Proof.
  unfold SLDisplayable_arguments. intros E Hstored.
  apply bind_Ok in E as ([positional stored] & Epositional & E).
  apply evaluate_positional_stored in Epositional as ->.
  apply bind_Ok in E as (ctx & _ & E).
  apply bind_Ok in E as (positional' & _ & E).
  apply bind_Ok in E as (styled & _ & E).
  apply bind_Ok in E as (overrides & _ & E).
  apply bind_Ok in E as (args & _ & E).
  injection E as <-. simpl. by rewrite Hstored.
Qed.

Lemma SLBlock_execute_keeps ex :
  keeps_tree ex →
  ∀ children c u children' c' u',
    existsb inserts_context children = false →
    SLBlock_execute ex children c u = Ok (children', c', u') →
    children' = children.
Proof.
  intros Hex. induction children as [|i children IH]; simpl;
    intros c u children' c' u' Hnone E.
  - by injection E as <- <- <-.
  - apply orb_false_elim in Hnone as [Hi Hchildren].
    apply bind_Ok in E as ([[i1 c1] u1] & Ei & E).
    apply bind_Ok in E as ([[l2 c2] u2] & El & E).
    injection E as <- <- <-.
    f_equal; [by eapply Hex|by eapply IH].
Qed.

Lemma SLIf_execute_keeps ex c u :
  keeps_tree ex →
  ∀ entries conds entries' c' u',
    existsb (λ entry, inserts_context entry.2) entries = false →
    SLIf_execute ex c u entries conds = Ok (entries', c', u') →
    entries' = entries.
Proof.
  intros Hex. induction entries as [|[cond block] entries IH]; simpl;
    intros conds entries' c' u' Hnone E.
  - by injection E as <- <- <-.
  - apply orb_false_elim in Hnone as [Hblock Hentries].
    destruct conds as [|cond' conds]; simpl in E.
    { by injection E as <- <- <-. }
    apply bind_Ok in E as (b & Eb & E). destruct b.
    + apply bind_Ok in E as ([[b1 c1] u1] & Eblock & E).
      injection E as <- <- <-. do 2 f_equal. by eapply Hex.
    + apply bind_Ok in E as ([[l1 c1] u1] & El & E).
      injection E as <- <- <-. f_equal. by eapply IH.
Qed.

Lemma SLFor_loop_keeps ex variable :
  keeps_tree ex →
  ∀ vs children c u children' c' u',
    existsb inserts_context children = false →
    SLFor_loop ex variable vs children c u = Ok (children', c', u') →
    children' = children.
Proof.
  intros Hex. induction vs as [|i vs IH]; simpl;
    intros children c u children' c' u' Hnone E.
  - by injection E as <- <- <-.
  - apply bind_Ok in E as ([[l1 c1] u1] & El & E).
    apply (SLBlock_execute_keeps _ Hex) in El as ->; [|done]. by eapply IH.
Qed.

(** Apart from that insertion a prepared tree is not changed by [execute]:
    a tree in which no displayable passes its stored positional list with
    the context returns from [execute] as it was. *)
Lemma execute_keeps_tree fuel : keeps_tree (execute fuel).
Proof.
  induction fuel as [|fuel IH]; intros self c u self' c' u' Hnone E; [done|].
  destruct self; simpl in E, Hnone.
  - apply bind_Ok in E as ([[l1 c1] u1] & El & E). injection E as <- <- <-.
    by rewrite (SLBlock_execute_keeps _ IH _ _ _ _ _ _ Hnone El).
  - apply orb_false_elim in Hnone as [Hpos Hchildren].
    apply bind_Ok in E as (a & Ea & E).
    apply bind_Ok in E as (stack & _ & E).
    apply bind_Ok in E as ([[l1 c1] u1] & El & E).
    apply bind_Ok in E as (d & _ & E).
    apply bind_Ok in E as (u2 & _ & E). injection E as <- <- <-.
    by rewrite (SLBlock_execute_keeps _ IH _ _ _ _ _ _ Hchildren El),
         (SLDisplayable_arguments_pos _ _ _ _ _ _ _ Ea Hpos).
  - apply bind_Ok in E as (conds & _ & E).
    apply bind_Ok in E as ([[l1 c1] u1] & El & E). injection E as <- <- <-.
    by rewrite (SLIf_execute_keeps _ _ _ IH _ _ _ _ _ Hnone El).
  - apply bind_Ok in E as (value & _ & E).
    apply bind_Ok in E as (vs & _ & E).
    apply bind_Ok in E as ([[l1 c1] u1] & El & E). injection E as <- <- <-.
    by rewrite (SLFor_loop_keeps _ _ IH _ _ _ _ _ _ _ Hnone El).
  - apply bind_Ok in E as (scope & _ & E). by injection E as <- <- <-.
  - by injection E as <- <- <-.
  - destruct (_ !! _).
    + by injection E as <- <- <-.
    + apply bind_Ok in E as (bc & _ & E). apply bind_Ok in E as (v & _ & E).
      by injection E as <- <- <-.
Qed.

(** ** The passes on every node class *)

(** X1: the keyword pass of a node of any class changes nothing of the
    context but its keywords and its style prefix: the scope and the
    children are those of the context it was given. *)
Theorem keywords_touches_keywords_and_prefix_only self context context' :
  keywords self context = Ok context' →
  SLContext.scope context' = SLContext.scope context
  ∧ SLContext.children context' = SLContext.children context.
Proof. intros E. by apply keywords_frame in E as []. Qed.

(** X2: [execute] of a node of any class, at any depth, only appends to the
    children of the context: the children before are a prefix of the
    children after, and the keywords and the style prefix of the context
    are what they were. *)
Theorem execute_only_appends fuel self context u self' context' u' :
  execute fuel self context u = Ok (self', context', u') →
  ∃ new,
    SLContext.children context' = SLContext.children context ++ new
    ∧ SLContext.keywords context' = SLContext.keywords context
    ∧ SLContext.style_prefix context' = SLContext.style_prefix context.
Proof. intros E. by apply execute_appends in E. Qed.

(** ** The screen *)









(** ** Fuel and the tree, for every node class *)

(** X4: the nested calls of [execute] are bounded by the depth of the tree,
    whatever the iterables of its loops are: with any two amounts of fuel
    that are at least the depth of the tree, [execute] gives the same
    outcome, and that outcome is a return or an exception. *)
Theorem execute_fuel_irrelevant fuel fuel' self context u :
  depth self ≤ fuel → depth self ≤ fuel' →
  execute fuel' self context u = execute fuel self context u
  ∧ settled (execute fuel self context u).
Proof.
  intros Hfuel Hfuel'.
  split; [|by apply execute_settled].
  assert (∀ n m, depth self ≤ n →
                 execute (n + m) self context u = execute n self context u)
    as Hmore.
  { intros n m Hn. induction m as [|m IH].
    - by rewrite Nat.add_0_r.
    - rewrite Nat.add_succ_r, <-IH. apply execute_extends.
      rewrite IH. by apply execute_settled. }
  destruct (Nat.le_ge_cases fuel fuel') as [Hle|Hle].
  - replace fuel' with (fuel + (fuel' - fuel)) by lia. by apply Hmore.
  - replace fuel with (fuel' + (fuel - fuel')) by lia.
    symmetry. by apply Hmore.
Qed.

(** X5: apart from the insertion of the context into a stored positional
    list, [execute] assigns to no attribute of any node: a tree in which no
    displayable has both [pass_context] and a stored list of constant
    positional values is, after [execute], the tree it was before. *)
Theorem execute_leaves_tree fuel self context u self' context' u' :
  inserts_context self = false →
  execute fuel self context u = Ok (self', context', u') →
  self' = self.
Proof. intros Hself E. by eapply execute_keeps_tree. Qed.

(** ** Defaults *)

(** X6: [SLDefault.execute] never overwrites: when the variable is in the
    scope the call changes nothing and does not read [self.expr]; otherwise
    the variable is bound to the value of the expression in the scope.  In
    both cases every other variable is left as it was, nothing but the scope
    changes, and a second [execute] changes nothing. *)
Theorem SLDefault_execute_once fuel serial variable expression expr
    context u self' context' u' :
  let self := SLDefault serial variable expression expr in
  execute fuel self context u = Ok (self', context', u') →
  self' = self ∧ u' = u
  ∧ context' = SLContext.set_scope (SLContext.scope context') context
  ∧ match SLContext.scope context !! variable with
    | Some v => context' = context
    | None =>
        ∃ bc v,
          expr = Some bc
          ∧ py_eval_bytecode bc (Locals (SLContext.scope context)) = Ok v
          ∧ SLContext.scope context'
            = <[variable := v]> (SLContext.scope context)
    end
  ∧ (∀ other, other ≠ variable →
       SLContext.scope context' !! other = SLContext.scope context !! other)
  ∧ ∀ fuel', execute (S fuel') self' context' u' = Ok (self', context', u').
Proof.
  intros self E. destruct fuel as [|fuel]; [done|]. simpl in E.
  destruct (SLContext.scope context !! variable) as [v|] eqn:Hv.
  - injection E as <- <- <-. repeat split; [by destruct context|].
    intros fuel'. simpl. by rewrite Hv.
  - apply bind_Ok in E as (bc & Ebc & E). apply bind_Ok in E as (v & Ev & E).
    injection E as <- <- <-. apply getattr_Ok in Ebc.
    repeat split; simpl.
    + eauto.
    + intros other Hother. by rewrite lookup_insert_ne.
    + intros fuel'. by rewrite lookup_insert_eq.
Qed.

(** ** Blocks *)

Lemma SLBlock_execute_app ex l1 l2 c u :
  SLBlock_execute ex (l1 ++ l2) c u
  = '(l1', c1, u1) ← SLBlock_execute ex l1 c u;
    '(l2', c2, u2) ← SLBlock_execute ex l2 c1 u1;
    Ok (l1' ++ l2', c2, u2).
Proof.
  revert c u. induction l1 as [|i l1 IH]; intros c u; simpl.
  - destruct (SLBlock_execute ex l2 c u) as [[[l2' c2] u2]| |]; done.
  - destruct (ex i c u) as [[[i' c1] u1]| |]; simpl; [|done..].
    rewrite IH.
    destruct (SLBlock_execute ex l1 c1 u1) as [[[l1' c2] u2]| |];
      simpl; [|done..].
    destruct (SLBlock_execute ex l2 c2 u2) as [[[l2' c3] u3]| |]; done.
Qed.

(** X7: [SLBlock.execute] runs the children in order, each on what the one
    before left: a block whose children are [l1] followed by [l2] executes
    as the block of [l1] and then, on the context and the outside that one
    left, the block of [l2]; if the first raises, the second is not run and
    the exception is that of the first. *)
Theorem SLBlock_execute_sequence fuel serial kw l1 l2 context u :
  execute fuel (SLBlock serial kw (l1 ++ l2)) context u
  = '(b1, c1, u1) ← execute fuel (SLBlock serial kw l1) context u;
    '(b2, c2, u2) ← execute fuel (SLBlock serial kw l2) c1 u1;
    Ok (SLBlock serial kw (children_of b1 ++ children_of b2), c2, u2).
Proof.
  destruct fuel as [|fuel]; [done|]. simpl. rewrite SLBlock_execute_app.
  destruct (SLBlock_execute (execute fuel) l1 context u)
    as [[[l1' c1] u1]| |]; simpl; [|done..].
  destruct (SLBlock_execute (execute fuel) l2 c1 u1)
    as [[[l2' c2] u2]| |]; done.
Qed.

(** ** What [prepare] makes of a loop and of a conditional *)

(** X8: the iterable of a prepared [SLFor] is the value of its declared
    expression.  When the expression is a constant, [prepare] has evaluated
    it, without a scope, and every [execute] iterates over that value
    whatever the scope is; otherwise every [execute] evaluates the compiled
    expression in the scope it is given.  A value that cannot be iterated
    over is found by [execute], not by [prepare]. *)
Theorem SLFor_iterable serial variable expression value0 expr0 kw children
    self' :
  prepare (SLFor serial variable expression value0 expr0 kw children)
  = Ok self' →
  ∃ node value expr kw' children',
    self' = SLFor serial variable expression (Some value) (Some expr) kw'
              children'
    ∧ py_compile expression = Ok node
    ∧ (if is_constant node
       then eval_ast node Unscoped = Ok value ∧ expr = None
       else value = VNone ∧ expr = Some (compile_expr node))
    ∧ ∀ fuel context u,
        execute (S fuel) self' context u
        = (v ← (if is_constant node then Ok value
                else eval_ast node (Locals (SLContext.scope context)));
           vs ← iterate v;
           '(children2, context', u') ←
             SLFor_loop (execute fuel) variable vs children' context u;
           Ok (SLFor serial variable expression (Some value) (Some expr) kw'
                 children2, context', u')).
Proof.
  simpl. intros E.
  apply bind_Ok in E as (node & Enode & E).
  apply bind_Ok in E as ([value expr] & Evalue & E).
  apply bind_Ok in E as ([kw' children'] & Eblock & E).
  injection E as <-.
  exists node, value, expr, kw', children'.
  split; [done|]. split; [done|].
  destruct (is_constant node).
  - apply bind_Ok in Evalue as (v & Ev & Evalue). injection Evalue as <- <-.
    done.
  - injection Evalue as <- <-. done.
Qed.

Lemma prepare_entries_parallel (entries : list (option string * node)) :
  ∀ prepared,
    traverse (prepare_entry prepare) entries = Ok prepared →
    Forall2 (λ entry entry',
               entry'.1 = entry.1 ∧ prepare entry.2 = Ok entry'.2)
      entries (map snd prepared)
    ∧ Forall2 (λ entry cond,
                 match entry.1 with
                 | None => cond = None
                 | Some c =>
                     ∃ node, py_compile c = Ok node
                             ∧ cond = Some (compile_expr node)
                 end) entries (map fst prepared).
Proof.
  induction entries as [|[c block] entries IH]; simpl; intros prepared E.
  - injection E as <-. split; constructor.
  - apply bind_Ok in E as (p & Ep & E).
    apply bind_Ok in E as (ps & Eps & E). injection E as <-.
    apply IH in Eps as [IH1 IH2].
    unfold prepare_entry in Ep. simpl in Ep.
    apply bind_Ok in Ep as (cond & Econd & Ep).
    apply bind_Ok in Ep as (block' & Eblock & Ep). injection Ep as <-.
    simpl. split; constructor; try done.
    destruct c as [c|]; simpl.
    + apply bind_Ok in Econd as (node & Enode & Econd).
      injection Econd as <-. eauto.
    + by injection Econd as <-.
Qed.

(** X9: [SLIf.prepare] makes [prepared_entries] parallel to [entries]: one
    prepared entry for each entry, in the declared order, with the compiled
    condition of that entry (no condition for an [else] entry, which
    therefore always holds) and the block of that entry, prepared; the
    declared conditions stay in [entries] as they were. *)
Theorem SLIf_prepare_parallel serial entries prepared0 self' :
  prepare (SLIf serial entries prepared0) = Ok self' →
  ∃ entries' conds,
    self' = SLIf serial entries' (Some conds)
    ∧ length conds = length entries'
    ∧ Forall2 (λ entry entry',
                 entry'.1 = entry.1 ∧ prepare entry.2 = Ok entry'.2)
        entries entries'
    ∧ Forall2 (λ entry cond,
                 match entry.1 with
                 | None =>
                     cond = None
                     ∧ ∀ context, entry_holds cond context = Ok true
                 | Some c =>
                     ∃ node, py_compile c = Ok node
                             ∧ cond = Some (compile_expr node)
                 end) entries conds.
Proof.
  simpl. intros E. apply bind_Ok in E as (prepared & Eprepared & E).
  injection E as <-.
  apply prepare_entries_parallel in Eprepared as [H1 H2].
  exists (map snd prepared), (map fst prepared).
  split; [done|]. split; [by rewrite !length_map|]. split; [done|].
  eapply Forall2_impl; [exact H2|].
  intros [[c|] block] cond; simpl; [done|]. by intros ->.
Qed.

(** ** [prepare] after [execute] *)

Lemma SLBlock_execute_declarations ex :
  keeps_declarations ex →
  ∀ children c u children' c' u',
    SLBlock_execute ex children c u = Ok (children', c', u') →
    traverse prepare children' = traverse prepare children.
Proof.
  intros Hex. induction children as [|i children IH]; simpl; intros * E.
  - by injection E as <- <- <-.
  - apply bind_Ok in E as ([[i1 c1] u1] & Ei & E).
    apply bind_Ok in E as ([[l2 c2] u2] & El & E).
    injection E as <- <- <-. simpl.
    by rewrite (Hex _ _ _ _ _ _ Ei), (IH _ _ _ _ _ El).
Qed.

Lemma prepare_entry_declarations cond block block' :
  prepare block' = prepare block →
  prepare_entry prepare (cond, block') = prepare_entry prepare (cond, block).
Proof.
  intros Hblock. unfold prepare_entry. simpl.
  destruct cond as [c|]; simpl; [destruct (py_compile c); simpl|];
    by rewrite ?Hblock.
Qed.

Lemma SLIf_execute_declarations ex c u :
  keeps_declarations ex →
  ∀ entries conds entries' c' u',
    SLIf_execute ex c u entries conds = Ok (entries', c', u') →
    traverse (prepare_entry prepare) entries'
    = traverse (prepare_entry prepare) entries.
Proof.
  intros Hex. induction entries as [|[cond block] entries IH]; simpl;
    intros conds entries' c' u' E.
  - by injection E as <- <- <-.
  - destruct conds as [|cond' conds]; simpl in E.
    { by injection E as <- <- <-. }
    apply bind_Ok in E as (b & Eb & E). destruct b.
    + apply bind_Ok in E as ([[b1 c1] u1] & Eblock & E).
      injection E as <- <- <-. simpl.
      by rewrite (prepare_entry_declarations _ _ _ (Hex _ _ _ _ _ _ Eblock)).
    + apply bind_Ok in E as ([[l1 c1] u1] & El & E).
      injection E as <- <- <-. simpl. by rewrite (IH _ _ _ _ El).
Qed.

Lemma SLFor_loop_declarations ex variable :
  keeps_declarations ex →
  ∀ vs children c u children' c' u',
    SLFor_loop ex variable vs children c u = Ok (children', c', u') →
    traverse prepare children' = traverse prepare children.
Proof.
  intros Hex. induction vs as [|i vs IH]; simpl; intros * E.
  - by injection E as <- <- <-.
  - apply bind_Ok in E as ([[l1 c1] u1] & El & E).
    apply (SLBlock_execute_declarations _ Hex) in El.
    apply IH in E. congruence.
Qed.

Lemma SLDisplayable_arguments_declared init pos kw children c u a :
  SLDisplayable_arguments init pos kw children c u = Ok a →
  positional (node_pos a) = positional pos.
Proof.
  unfold SLDisplayable_arguments. intros E.
  apply bind_Ok in E as ([p stored] & _ & E).
  apply bind_Ok in E as (ctx & _ & E).
  apply bind_Ok in E as (p' & _ & E).
  apply bind_Ok in E as (kwds & _ & E).
  apply bind_Ok in E as (overrides & _ & E).
  apply bind_Ok in E as (args & _ & E).
  injection E as <-. simpl. by destruct (pass_context init && stored).
Qed.

Lemma execute_declarations fuel : keeps_declarations (execute fuel).
Proof.
  induction fuel as [|fuel IH]; intros self c u self' c' u' E; [done|].
  destruct self; simpl in E.
  - apply bind_Ok in E as ([[l1 c1] u1] & El & E). injection E as <- <- <-.
    simpl. unfold SLBlock_prepare.
    by rewrite (SLBlock_execute_declarations _ IH _ _ _ _ _ _ El).
  - apply bind_Ok in E as (a & Ea & E).
    apply bind_Ok in E as (stack & _ & E).
    apply bind_Ok in E as ([[l1 c1] u1] & El & E).
    apply bind_Ok in E as (d & _ & E).
    apply bind_Ok in E as (u2 & _ & E). injection E as <- <- <-.
    simpl. unfold SLBlock_prepare, prepare_positional.
    rewrite (SLBlock_execute_declarations _ IH _ _ _ _ _ _ El).
    by rewrite (SLDisplayable_arguments_declared _ _ _ _ _ _ _ Ea).
  - apply bind_Ok in E as (conds & _ & E).
    apply bind_Ok in E as ([[l1 c1] u1] & El & E). injection E as <- <- <-.
    simpl. by rewrite (SLIf_execute_declarations _ _ _ IH _ _ _ _ _ El).
  - apply bind_Ok in E as (value & _ & E).
    apply bind_Ok in E as (vs & _ & E).
    apply bind_Ok in E as ([[l1 c1] u1] & El & E). injection E as <- <- <-.
    simpl. unfold SLBlock_prepare.
    by rewrite (SLFor_loop_declarations _ _ IH _ _ _ _ _ _ _ El).
  - apply bind_Ok in E as (scope & _ & E). by injection E as <- <- <-.
  - by injection E as <- <- <-.
  - destruct (_ !! _).
    + by injection E as <- <- <-.
    + apply bind_Ok in E as (bc & _ & E). apply bind_Ok in E as (v & _ & E).
      by injection E as <- <- <-.
Qed.

(** X10: [execute] changes no declared expression anywhere in the tree, and
    [prepare] reads nothing else: [prepare] on the tree [execute] returns
    does what [prepare] on the tree before did.  In particular, on a
    prepared tree, [prepare] after [execute] gives back the tree as it was
    before [execute], whatever [execute] stored in it. *)
Theorem prepare_after_execute fuel self context u self' context' u' :
  execute fuel self context u = Ok (self', context', u') →
  prepare self' = prepare self
  ∧ ∀ source, prepare source = Ok self → prepare self' = Ok self.
Proof.
  intros E. apply execute_declarations in E. split; [done|].
  intros source Hself. rewrite E. by eapply prepare_fixed.
Qed.

(** ** Who writes to the scope *)








(** ** The context as first argument *)

Lemma positional_loop_dynamic l :
  Forall dynamic l →
  ∀ exprs values has_exprs has_values,
    ∃ nodes,
      Forall2 (λ a node, py_compile a = Ok node) l nodes
      ∧ positional_loop l exprs values has_exprs has_values
        = Ok (exprs ++ nodes,
              values ++ replicate (length l) use_expression,
              match l with [] => has_exprs | _ :: _ => true end,
              has_values).
Proof.
  induction 1 as [|a l (node & Enode & Hnode) _ IH]; intros; simpl.
  - exists []. split; [constructor|]. by rewrite !app_nil_r.
  - destruct (IH (exprs ++ [node]) (values ++ [use_expression]) true
                has_values) as (nodes & Hnodes & Eloop).
    exists (node :: nodes). split; [by constructor|].
    rewrite Enode. simpl. rewrite Hnode, Eloop, <-!app_assoc. simpl.
    by destruct l.
Qed.

(** X13: a displayable with [pass_context] needs a constant among its
    positional expressions.  When it has positional expressions and none of
    them is a constant, [prepare] stores no values list and [execute] takes
    the tuple the compiled expressions evaluate to as [positional]; a tuple
    has no [insert], so the call never returns: it raises the exception of
    an expression or of the keyword pass if there is one, and
    [AttributeError] otherwise, before the construction function is
    called. *)
Theorem pass_context_without_constant init pos0 :
  pass_context init = true →
  positional pos0 ≠ [] →
  Forall dynamic (positional pos0) →
  ∃ pos nodes,
    prepare_positional pos0 = Ok pos
    ∧ Forall2 (λ a node, py_compile a = Ok node) (positional pos0) nodes
    ∧ ∀ fuel serial kw children context u,
        execute (S fuel) (SLDisplayable serial init pos kw children) context u
        = (vs ← traverse
                  (λ node, eval_ast node (Locals (SLContext.scope context)))
                  nodes;
           ctx ← SLBlock_keywords keywords kw children (derived context);
           Raise AttributeError).
Proof.
  intros Hpass Hsome Hdynamic.
  destruct (positional_loop_dynamic _ Hdynamic [] [] false false)
    as (nodes & Hnodes & Eloop).
  eexists _, nodes. split; [|split; [exact Hnodes|]].
  - unfold prepare_positional. rewrite Eloop. simpl. reflexivity.
  - intros. simpl. unfold SLDisplayable_arguments, evaluate_positional.
    simpl. destruct (positional pos0); [done|]. simpl.
    destruct (traverse _ nodes) as [vs| |]; simpl; [|done..].
    change (SLContext.set_children [] _) with (derived context).
    destruct (SLBlock_keywords keywords kw children (derived context))
      as [ctx| |]; simpl; [|done..].
    by rewrite Hpass.
Qed.

(** ** The screen and the imagemap stack *)


(** ** The style group *)

Lemma apply_style_group_pops c c' :
  apply_style_group c = Ok c' →
  SLContext.keywords c' !! "style_group" = None.
Proof.
  unfold apply_style_group.
  destruct (SLContext.keywords c !! "style_group") as [v|] eqn:Hv.
  - destruct v; intros [= <-]; simpl; apply lookup_delete_eq.
  - by intros [= <-].
Qed.

Lemma foldM_popped (f : node → SLContext.t → result SLContext.t) l :
  Forall (λ i, ∀ c c', f i c = Ok c' →
                 SLContext.keywords c !! "style_group" = None →
                 SLContext.keywords c' !! "style_group" = None) l →
  ∀ c c', foldM f l c = Ok c' →
          SLContext.keywords c !! "style_group" = None →
          SLContext.keywords c' !! "style_group" = None.
Proof.
  induction 1 as [|i l Hi _ IH]; simpl; intros c c' E Hc.
  - by injection E as <-.
  - apply bind_Ok in E as (c1 & E1 & E). eauto.
Qed.

Lemma SLBlock_keywords_popped f kw children :
  Forall (λ i, ∀ c c', f i c = Ok c' →
                 SLContext.keywords c !! "style_group" = None →
                 SLContext.keywords c' !! "style_group" = None) children →
  ∀ c c', SLBlock_keywords f kw children c = Ok c' →
          SLContext.keywords c' !! "style_group" = None.
Proof.
  intros Hchildren c c' E. unfold SLBlock_keywords in E.
  apply bind_Ok in E as (values & _ & E).
  apply bind_Ok in E as (c1 & _ & E).
  apply bind_Ok in E as (exprs & _ & E).
  apply bind_Ok in E as (c2 & _ & E).
  apply bind_Ok in E as (c3 & E3 & E).
  apply apply_style_group_pops in E3.
  by eapply foldM_popped.
Qed.

(** The keyword pass of any node leaves no [style_group] among the keywords
    of a context that had none. *)
Lemma keywords_popped self :
  ∀ c c', keywords self c = Ok c' →
          SLContext.keywords c !! "style_group" = None →
          SLContext.keywords c' !! "style_group" = None.
Proof.
  induction self as [serial kw children IH|serial init pos kw children IH
                    |serial entries prepared IH| | | |] using node_ind';
    simpl; intros c c' E Hc; try by injection E as <-.
  - by eapply SLBlock_keywords_popped.
  - by eapply SLBlock_keywords_popped.
  - apply bind_Ok in E as (conds & _ & E).
    revert conds E. induction IH as [|[cond block] entries Hblock _ IHe];
      intros conds E; simpl in E.
    + by injection E as <-.
    + destruct conds as [|cond' conds]; [by injection E as <-|].
      apply bind_Ok in E as (b & _ & E). destruct b; eauto.
Qed.

(** X15: the keyword [style_group] is consumed by the keyword pass, which
    turns it into the style prefix: whatever the node and the blocks under
    it give for it, constant or not, the construction function is not
    called with it.  A key of that name reaches the call only from the
    entry of the override table for the [id] of the node. *)
Theorem style_group_not_passed init pos kw children context u c :
  SLDisplayable_arguments init pos kw children context u = Ok c →
  ∃ overrides,
    widget_overrides (widget_id c) u = Ok overrides
    ∧ passed_keywords c !! "style_group" = overrides ≫= (.!! "style_group").
Proof.
  unfold SLDisplayable_arguments. intros E.
  apply bind_Ok in E as ([positional stored] & _ & E).
  apply bind_Ok in E as (ctx & Ectx & E).
  apply bind_Ok in E as (positional' & _ & E).
  apply bind_Ok in E as (styled & Estyled & E).
  apply bind_Ok in E as (overrides & Eov & E).
  apply bind_Ok in E as (args & _ & E).
  injection E as <-. simpl in *.
  exists overrides. split; [done|].
  apply SLBlock_keywords_popped in Ectx;
    [|apply Forall_forall; intros; by eapply keywords_popped].
  assert (styled !! "style_group" = None) as Hstyled.
  { destruct (_ !! "style"); [by simplify_eq|].
    destruct (style_name _); [|by simplify_eq].
    apply bind_Ok in Estyled as (st & _ & [= <-]).
    by rewrite lookup_insert_ne. }
  set (K := if scope init
            then <["scope":=VDict (SLContext.scope ctx)]> styled
            else styled) in *.
  assert (delete "at" (delete "id" K) !! "style_group" = None) as HK.
  { rewrite !lookup_delete_ne by done. subst K.
    destruct (scope init); [by rewrite lookup_insert_ne|done]. }
  destruct overrides as [d|]; simpl; [|done].
  rewrite lookup_union, HK. by destruct (d !! "style_group").
Qed.

(** ** The keywords of a child displayable *)



(** ** The order of the keywords *)

Lemma bind_all_union l : ∀ d m, bind_all l d ∪ m = bind_all l (d ∪ m).
Proof.
  unfold bind_all. induction l as [|[k v] l IH]; intros d m; simpl; [done|].
  by rewrite IH, insert_union_l.
Qed.

Lemma bind_all_app l1 l2 d :
  bind_all (l1 ++ l2) d = bind_all l2 (bind_all l1 d).
Proof. unfold bind_all. apply foldl_app. Qed.

Lemma is_empty_spec (d : dict) : is_empty d = true → d = ∅.
Proof.
  unfold is_empty. intros Hd. apply bool_decide_eq_true in Hd.
  by apply dom_empty_inv_L.
Qed.

(** The loop of [SLBlock.prepare]: [keyword_values] binds the constant
    declarations in the declared order, [keyword_keys] and [keyword_exprs]
    hold the others in the declared order. *)
Lemma keyword_loop_spec l :
  ∀ values keys exprs values' keys' exprs',
    keyword_loop l values keys exprs = Ok (values', keys', exprs') →
    ∃ cs names nodes,
      values' = bind_all cs values
      ∧ keys' = keys ++ (Str <$> names)
      ∧ exprs' = exprs ++ nodes
      ∧ length names = length nodes
      ∧ ∀ vs,
          traverse (λ e, eval_ast e Unscoped) nodes = Ok vs →
          ∃ vals,
            traverse keyword_value l = Ok vals
            ∧ constants vals = cs
            ∧ expressions vals = zip names vs.
Proof.
  induction l as [|[k expr] l IH]; intros * E.
  - injection E as <- <- <-. exists [], [], [].
    rewrite !app_nil_r. repeat split; try done.
    intros vs [= <-]. by exists [].
  - simpl in E. apply bind_Ok in E as (node & Enode & E).
    assert (∀ v, eval_ast node Unscoped = Ok v →
                 keyword_value (k, expr) = Ok (is_constant node, (k, v)))
      as Hdecl.
    { intros v Ev. unfold keyword_value. simpl. rewrite Enode. simpl.
      by rewrite Ev. }
    destruct (is_constant node) eqn:Hconstant.
    + apply bind_Ok in E as (v & Ev & E).
      apply IH in E as (cs & names & nodes & -> & -> & -> & Hlen & Hvals).
      exists ((k, v) :: cs), names, nodes. repeat split; try done.
      intros vs Evs. apply Hvals in Evs as (vals & Evals & Hcs & Hds).
      simpl. rewrite (Hdecl v Ev), Evals. simpl.
      eexists. split; [done|].
      unfold constants, expressions. simpl.
      split; [by f_equal|done].
    + apply IH in E as (cs & names & nodes & -> & -> & -> & Hlen & Hvals).
      exists cs, (k :: names), (node :: nodes).
      rewrite <-!app_assoc. repeat split; try done; [simpl; by f_equal|].
      intros vs Evs. simpl in Evs.
      apply bind_Ok in Evs as (v & Ev & Evs).
      apply bind_Ok in Evs as (vs' & Evs' & Evs). injection Evs as <-.
      apply Hvals in Evs' as (vals & Evals & Hcs & Hds).
      simpl. rewrite (Hdecl v Ev), Evals. simpl.
      eexists. split; [done|].
      unfold constants, expressions. simpl.
      split; [done|by f_equal].
Qed.

Lemma traverse_Str names sc :
  traverse (λ e, eval_ast e sc) (Str <$> names) = Ok (VStr <$> names).
Proof.
  induction names as [|k names IH]; [done|].
  rewrite !fmap_cons. simpl. by rewrite IH.
Qed.

Lemma traverse_length {A B} (f : A → result B) l :
  ∀ l', traverse f l = Ok l' → length l' = length l.
Proof.
  induction l as [|a l IH]; simpl; intros l' E.
  - by injection E as <-.
  - apply bind_Ok in E as (b & _ & E). apply bind_Ok in E as (bs & Ebs & E).
    injection E as <-. simpl. f_equal. by apply IH.
Qed.

(** A dict display with string keys binds them in order. *)
Lemma dict_display_names names vs :
  dict_display (VStr <$> names) vs = Ok (bind_all (zip names vs) ∅).
Proof.
  unfold dict_display, bind_all.
  generalize (∅ : dict). revert vs.
  induction names as [|k names IH]; intros vs d; simpl; [done|].
  destruct vs as [|v vs]; simpl; [done|]. apply IH.
Qed.

(** X17: the keywords of a block are not merged in the declared order.
    [prepare] separates the constants from the other expressions, and
    [keywords] merges the constants first and the values of the other
    expressions second, each group in the declared order: what the keyword
    pass has assembled when it turns to the children is the keywords of the
    context, under the constants, under the other values, without
    [style_group].  So where a key is given twice, an expression that is not
    a constant wins over a constant, also over one declared after it. *)
Theorem keywords_constants_first kw0 children0 kw children context context' :
  SLBlock_prepare prepare kw0 children0 = Ok (kw, children) →
  SLBlock_keywords keywords kw children context = Ok context' →
  ∃ vals assembled,
    traverse keyword_value (keyword kw0) = Ok vals
    ∧ SLContext.keywords assembled
      = delete "style_group"
          (bind_all (expressions vals)
             (bind_all (constants vals) (SLContext.keywords context)))
    ∧ foldM keywords children assembled = Ok context'.
Proof.
  unfold SLBlock_prepare. intros Eprepare E.
  apply bind_Ok in Eprepare as (children' & _ & Eprepare).
  apply bind_Ok in Eprepare as ([[values keys] exprs] & Eloop & Eprepare).
  injection Eprepare as <- <-.
  apply keyword_loop_spec in Eloop
    as (cs & names & nodes & -> & Hkeys & -> & Hlen & Hvals).
  simpl in Hkeys. subst keys.
  unfold SLBlock_keywords in E. simpl in E.
  apply bind_Ok in E as (c1 & E1 & E).
  apply bind_Ok in E as (c2 & E2 & E).
  apply bind_Ok in E as (c3 & E3 & E).
  assert (SLContext.keywords c1 = bind_all cs (SLContext.keywords context))
    as H1.
  { destruct (is_empty (bind_all cs ∅)) eqn:Hempty.
    - injection E1 as <-. apply is_empty_spec in Hempty.
      by rewrite <-(left_id_L ∅ (∪) (SLContext.keywords context)),
        <-bind_all_union, Hempty.
    - injection E1 as <-. simpl.
      by rewrite bind_all_union, (left_id_L ∅ (∪)). }
  assert (∃ vs, traverse (λ e, eval_ast e Unscoped) nodes = Ok vs
                ∧ SLContext.keywords c2
                  = bind_all (zip names vs) (SLContext.keywords c1))
    as (vs & Evs & H2).
  { destruct names as [|k names]; simpl in E2.
    - destruct nodes; [|done]. injection E2 as <-. by exists [].
    - apply bind_Ok in E2 as (v & Ev & E2).
      apply bind_Ok in Ev as (ks & Eks & Ev).
      apply bind_Ok in Ev as (vs & Evs & Ev).
      apply bind_Ok in Ev as (d & Ed & Ev). injection Ev as <-.
      assert (Ok ks = Ok (VStr <$> k :: names)) as [= ->]
        by (rewrite <-Eks; exact (traverse_Str (k :: names) Unscoped)).
      assert (Ok d = Ok (bind_all (zip (k :: names) vs) ∅)) as [= ->]
        by (rewrite <-Ed; exact (dict_display_names (k :: names) vs)).
      injection E2 as <-. exists vs. split; [done|]. simpl.
      by rewrite bind_all_union, (left_id_L ∅ (∪)). }
  destruct (Hvals vs Evs) as (vals & Etraverse & <- & Hds).
  exists vals, c3. split; [done|]. split; [|done].
  rewrite Hds, <-H1, <-H2. clear -E3. unfold apply_style_group in E3.
  destruct (SLContext.keywords c2 !! "style_group") as [v|] eqn:Hv.
  - destruct v; by simplify_eq.
  - injection E3 as <-. by rewrite delete_id.
Qed.

End Properties.

(** * The properties at concrete nodes, on the small host *)

Import Toy.

(** The frame of [SLDisplayable.execute] on [vbox: text 'red'], run in a
    context that already has a keyword and a child. *)
Lemma SLDisplayable_execute_frame_witness :
  ∃ self' context' u',
    execute 2 vbox_text busy no_ui = Ok (self', context', u')
    ∧ (∃ d, SLContext.children context' = SLContext.children busy ++ [d])
    ∧ SLContext.keywords context' = SLContext.keywords busy
    ∧ SLContext.style_prefix context' = SLContext.style_prefix busy.
Proof.
  assert (∃ r, execute 2 vbox_text busy no_ui = Ok r)
    as [[[self' context'] u'] E] by (eexists; vm_compute; reflexivity).
  exists self', context', u'. split; [exact E|].
  destruct (SLDisplayable_execute_frame _ _ _ _ _ _ _ _ _ _ _ E)
    as (d & _ & _ & _ & _ & _ & _ & Hd & Hk & Hp & _).
  eauto.
Defined.

(** [text id 'w' color 'red'] under the table that maps [w] to
    [color := 'blue'] is built with [color := 'blue'] and without [id]. *)
Lemma SLDisplayable_execute_overrides_witness :
  ∃ self' context' u',
    execute 1 text_w SLContext.root blue_ui = Ok (self', context', u')
    ∧ SLContext.children context'
      = [Built "text" [] {["color" := VStr "blue"]} []]
    ∧ ∃ c, SLDisplayable_arguments (flags "text")
             {| positional := []; positional_values := Some None;
                positional_exprs := Some None |}
             {| keyword := [("id", "'w'"); ("color", "'red'")];
                keyword_values :=
                  Some (Some (<["id" := VStr "w"]> {["color" := VStr "red"]}));
                keyword_exprs := Some None |} [] SLContext.root blue_ui = Ok c
           ∧ passed_keywords c !! "color" = Some (VStr "blue")
           ∧ passed_keywords c !! "id" = None.
Proof.
  assert (∃ r, execute 1 text_w SLContext.root blue_ui = Ok r
               ∧ SLContext.children r.1.2
                 = [Built "text" [] {["color" := VStr "blue"]} []])
    as ([[self' context'] u'] & E & Hchildren)
    by (eexists; split; vm_compute; reflexivity).
  exists self', context', u'. split; [exact E|]. split; [exact Hchildren|].
  destruct (SLDisplayable_execute_overrides _ _ _ _ _ _ _ _ _ E)
    as (c & ctx & K & overrides & stack & Hc & _ & Hctx & HK & Hid & _ & Hov
        & _ & Hreserved & _ & Hcolor).
  exists c. split; [exact Hc|].
  vm_compute in Hctx. injection Hctx as <-.
  assert (K !! "id" = Some (VStr "w")) as HKid
    by (rewrite HK by discriminate; vm_compute; reflexivity).
  split.
  - apply (Hcolor "w" {["color" := VStr "blue"]}); [exact HKid|reflexivity..].
  - rewrite Hreserved by (left; reflexivity).
    rewrite Hid, HKid in Hov. injection Hov as <-. reflexivity.
Defined.

(** C8 as stated fails: under a table whose entry for [w] has an [id], the
    construction function of [text id 'w' color 'red'] is called with that
    [id]. *)
Lemma reserved_keyword_from_override :
  ∃ a,
    SLDisplayable_arguments (flags "text")
      {| positional := []; positional_values := Some None;
         positional_exprs := Some None |}
      {| keyword := [("id", "'w'"); ("color", "'red'")];
         keyword_values :=
           Some (Some (<["id" := VStr "w"]> {["color" := VStr "red"]}));
         keyword_exprs := Some None |} [] SLContext.root id_ui = Ok a
    ∧ passed_keywords a !! "id" = Some (VStr "z")
    ∧ execute 1 text_w SLContext.root id_ui
      = Ok (text_w,
            SLContext.set_children
              [Built "text" []
                 (<["id" := VStr "z"]> {["color" := VStr "red"]}) []]
              SLContext.root,
            {| widget_properties := {["w" := {["id" := VStr "z"]}]};
               widgets :=
                 [(VStr "w",
                   Built "text" []
                     (<["id" := VStr "z"]> {["color" := VStr "red"]}) [])];
               imagemap_stack := [] |}).
Proof.
  eexists. split; [vm_compute; reflexivity|].
  split; vm_compute; reflexivity.
Qed.

(** The nodes run here are what [prepare] makes of their declarations. *)
Example text_w_prepared :
  prepare (SLDisplayable None (flags "text") (declared [])
             (given [("id", "'w'"); ("color", "'red'")]) [])
  = Ok text_w.
Proof. vm_compute. reflexivity. Qed.

(** [vbox: text 'red'], as declared and as prepared. *)
Example vbox_text_prepared :
  prepare (SLDisplayable None (flags "vbox") (declared [])
             (given [("id", "'w'")])
             [SLDisplayable None (flags "text") (declared ["'red'"])
                (given []) []])
  = Ok vbox_text.
Proof. vm_compute. reflexivity. Qed.

(** [if a: text 'red' elif b: text 5 else: text 1], as declared and as
    prepared. *)
Example if_a_elif_b_prepared :
  prepare (SLIf (Some 1)
             [(Some "a", SLBlock None (given [])
                           [SLDisplayable None (flags "text")
                              (declared ["'red'"]) (given []) []]);
              (Some "b", SLBlock None (given [])
                           [SLDisplayable None (flags "text")
                              (declared ["5"]) (given []) []]);
              (None, SLBlock None (given [])
                       [SLDisplayable None (flags "text")
                          (declared ["1"]) (given []) []])] None)
  = Ok if_a_elif_b.
Proof. vm_compute. reflexivity. Qed.

(** With [a] false and [b] true the conditional builds [text 5] and nothing
    else, and contributes no keyword. *)
Lemma SLIf_first_match_witness :
  execute 3 if_a_elif_b a_false_b_true no_ui
  = Ok (if_a_elif_b,
        SLContext.set_children [Built "text" [VInt 5] ∅ []] a_false_b_true,
        no_ui)
  ∧ keywords if_a_elif_b a_false_b_true = Ok a_false_b_true.
Proof.
  assert (Forall2 (λ (_ : option string * node) cond,
                     fails a_false_b_true cond)
            [(Some "a", block_of [text_of "'red'" (VStr "red")])]
            [Some (Code (Expr "a"))]) as Hbefore
    by (constructor; [vm_compute; reflexivity|constructor]).
  destruct (SLIf_first_match 2 (Some 1) _ _ a_false_b_true no_ui Hbefore)
    as [Hfirst _].
  destruct (Hfirst (Some "b") (block_of [text_of "5" (VInt 5)])
              (Some (Code (Expr "b")))
              [(None, block_of [text_of "1" (VInt 1)])] [None])
    as [Hexecute Hkeywords]; [vm_compute; reflexivity|].
  split.
  - unfold if_a_elif_b. rewrite Hexecute. vm_compute. reflexivity.
  - unfold if_a_elif_b. rewrite Hkeywords. vm_compute. reflexivity.
Defined.

(** [prepare] twice on a tree with every node class. *)
Example prepare_twice_every_class :
  ∃ self1,
    prepare every_class = Ok self1
    ∧ (prepare every_class ≫= prepare) = Ok self1.
Proof.
  assert (∃ self1, prepare every_class = Ok self1) as [self1 E]
    by (eexists; vm_compute; reflexivity).
  exists self1. split; [exact E|].
  rewrite E. exact (prepare_fixed every_class self1 E).
Qed.

(** [for x in [1, 2, 3]: text x], as declared and as prepared. *)
Example for_x_text_x_prepared :
  prepare (SLFor None "x" "[1, 2, 3]" None None (given [])
             [SLDisplayable None (flags "text") (declared ["x"]) (given [])
                []])
  = Ok for_x_text_x.
Proof. vm_compute. reflexivity. Qed.

(** The loop over [[1, 2, 3]] leaves [x = 3] and the three texts, in
    order. *)
Lemma SLFor_execute_iterations_witness :
  ∃ self' context' u',
    execute 2 for_x_text_x SLContext.root no_ui = Ok (self', context', u')
    ∧ SLContext.scope context' !! "x" = Some (VInt 3)
    ∧ SLContext.children context'
      = [Built "text" [VInt 1] ∅ []; Built "text" [VInt 2] ∅ [];
         Built "text" [VInt 3] ∅ []]
    ∧ ∃ news, SLContext.children context'
              = SLContext.children SLContext.root ++ concat news
              ∧ length news = 3.
Proof.
  assert (∃ r, execute 2 for_x_text_x SLContext.root no_ui = Ok r
               ∧ SLContext.scope r.1.2 !! "x" = Some (VInt 3)
               ∧ SLContext.children r.1.2
                 = [Built "text" [VInt 1] ∅ []; Built "text" [VInt 2] ∅ [];
                    Built "text" [VInt 3] ∅ []])
    as ([[self' context'] u'] & E & Hx & Hchildren)
    by (eexists; split; [vm_compute; reflexivity|];
        split; vm_compute; reflexivity).
  exists self', context', u'.
  split; [exact E|]. split; [exact Hx|]. split; [exact Hchildren|].
  destruct (SLFor_execute_iterations 1 None "x" "[1, 2, 3]"
              (Some (VList [VInt 1; VInt 2; VInt 3])) (Some None) no_keyword
              [text_x] SLContext.root no_ui
              (VList [VInt 1; VInt 2; VInt 3]) [VInt 1; VInt 2; VInt 3]
              eq_refl eq_refl) as (Hruns & Hconcat & _).
  apply Hruns in E as (children' & news & _ & Hnews).
  exists news. split; [exact (Hconcat _ _ _ _ Hnews)|].
  clear -Hnews.
  repeat match goal with
         | H : iterations _ _ _ _ _ _ |- _ => inversion H; clear H; subst
         end.
  reflexivity.
Defined.

(** [for x in [1, 2, 3]: for x in [7]: pass], as declared and as
    prepared. *)
Example for_x_for_x_prepared :
  prepare (SLFor None "x" "[1, 2, 3]" None None (given [])
             [SLFor None "x" "[7]" None None (given []) [SLPass (Some 1)]])
  = Ok for_x_for_x.
Proof. vm_compute. reflexivity. Qed.

(** C5 as stated fails: after [execute] over [[1, 2, 3]] binding [x], with a
    body that binds [x] itself, the scope maps [x] to 7 and not to 3. *)
Lemma loop_variable_rebound_by_body :
  ∃ context',
    execute 3 for_x_for_x SLContext.root no_ui
    = Ok (for_x_for_x, context', no_ui)
    ∧ SLContext.scope context' !! "x" = Some (VInt 7)
    ∧ SLContext.scope context' !! "x" ≠ Some (VInt 3).
Proof.
  eexists. split; [vm_compute; reflexivity|].
  split; [vm_compute; reflexivity|]. vm_compute. discriminate.
Qed.

(** [text 'red' t]: a constant and another expression. *)
Lemma mixed_positional_in_declared_order_witness :
  evaluate_positional
    {| positional := ["'red'"; "t"; "5"];
       positional_values :=
         Some (Some [VStr "red"; use_expression; VInt 5]);
       positional_exprs :=
         Some (Some (Code (Tuple [Num 0; Expr "t"; Num 0]))) |}
    {["t" := VInt 1]}
  = Ok (VList [VStr "red"; VInt 1; VInt 5], false).
Proof.
  destruct (mixed_positional_in_declared_order (H := host)
              (declared ["'red'"; "t"; "5"])
              {| positional := ["'red'"; "t"; "5"];
                 positional_values :=
                   Some (Some [VStr "red"; use_expression; VInt 5]);
                 positional_exprs :=
                   Some (Some (Code (Tuple [Num 0; Expr "t"; Num 0]))) |}
              [VStr "red"; use_expression; VInt 5]
              (Code (Tuple [Num 0; Expr "t"; Num 0]))
              eq_refl eq_refl eq_refl)
    as [Hpositional _].
  rewrite Hpositional. vm_compute. reflexivity.
Defined.

(** [text 'red' id 'w'] with a block that gives [color 'red'], in two
    scopes. *)
Lemma constant_arguments_ignore_scope_witness :
  ∃ a1 a2,
    SLDisplayable_arguments (flags "text")
      {| positional := ["'red'"];
         positional_values := Some (Some [VStr "red"]);
         positional_exprs := Some None |}
      {| keyword := [("id", "'w'")];
         keyword_values := Some (Some {["id" := VStr "w"]});
         keyword_exprs := Some None |}
      [SLBlock None
         {| keyword := [("color", "'red'")];
            keyword_values := Some (Some {["color" := VStr "red"]});
            keyword_exprs := Some None |} []]
      SLContext.root blue_ui = Ok a1
    ∧ SLDisplayable_arguments (flags "text")
        {| positional := ["'red'"];
           positional_values := Some (Some [VStr "red"]);
           positional_exprs := Some None |}
        {| keyword := [("id", "'w'")];
           keyword_values := Some (Some {["id" := VStr "w"]});
           keyword_exprs := Some None |}
        [SLBlock None
           {| keyword := [("color", "'red'")];
              keyword_values := Some (Some {["color" := VStr "red"]});
              keyword_exprs := Some None |} []]
        a_false_b_true blue_ui = Ok a2
    ∧ passed_positional a2 = passed_positional a1
    ∧ passed_keywords a2 = passed_keywords a1.
Proof.
  eexists. 
  edestruct (constant_arguments_ignore_scope (H := host) (flags "text")
              {| positional := ["'red'"];
                 positional_values := Some (Some [VStr "red"]);
                 positional_exprs := Some None |}
              {| keyword := [("id", "'w'")];
                 keyword_values := Some (Some {["id" := VStr "w"]});
                 keyword_exprs := Some None |}
              [SLBlock None
                 {| keyword := [("color", "'red'")];
                    keyword_values := Some (Some {["color" := VStr "red"]});
                    keyword_exprs := Some None |} []]
              SLContext.root a_false_b_true blue_ui)
    as (a2 & Ha2 & Hpositional & Hkeywords);
    [reflexivity..|vm_compute; reflexivity|].
  exists a2. split; [vm_compute; reflexivity|].
  split; [exact Ha2|]. split; [exact Hpositional|exact Hkeywords].
Defined.

(** C2 as stated fails: with constant positional and keyword expressions
    only, the arguments of the construction call differ between two scopes
    when the scope is passed as a keyword, when the context is passed, and
    when a conditional child contributes a keyword. *)
Lemma constant_arguments_depend_on_scope :
  (∃ a1 a2,
     SLDisplayable_arguments with_scope constant_red no_keyword []
       SLContext.root no_ui = Ok a1
     ∧ SLDisplayable_arguments with_scope constant_red no_keyword []
         a_false_b_true no_ui = Ok a2
     ∧ passed_keywords a1 !! "scope" = Some (VDict ∅)
     ∧ passed_keywords a2 !! "scope"
       = Some (VDict (<["a" := VBool false]> {["b" := VBool true]}))
     ∧ passed_keywords a1 ≠ passed_keywords a2)
  ∧ (∃ a1 a2,
       SLDisplayable_arguments with_context constant_red no_keyword []
         SLContext.root no_ui = Ok a1
       ∧ SLDisplayable_arguments with_context constant_red no_keyword []
           a_false_b_true no_ui = Ok a2
       ∧ passed_positional a1 = [VContext ∅ ∅ ""; VStr "red"]
       ∧ passed_positional a2
         = [VContext (<["a" := VBool false]> {["b" := VBool true]}) ∅ "";
            VStr "red"]
       ∧ passed_positional a1 ≠ passed_positional a2)
  ∧ (∃ a1 a2,
       SLDisplayable_arguments (flags "text") constant_red no_keyword
         [if_b_color] SLContext.root no_ui = Raise (NameError "b")
       ∧ SLDisplayable_arguments (flags "text") constant_red no_keyword
           [if_b_color] (SLContext.set_scope {["b" := VBool false]}
                           SLContext.root) no_ui = Ok a1
       ∧ SLDisplayable_arguments (flags "text") constant_red no_keyword
           [if_b_color] a_false_b_true no_ui = Ok a2
       ∧ passed_keywords a1 !! "color" = None
       ∧ passed_keywords a2 !! "color" = Some (VStr "red")
       ∧ passed_keywords a1 ≠ passed_keywords a2).
Proof.
  split; [|split].
  - eexists _, _.
    split; [vm_compute; reflexivity|]. split; [vm_compute; reflexivity|].
    split; [vm_compute; reflexivity|]. split; [vm_compute; reflexivity|].
    intros Heq. apply (f_equal (λ d : dict, d !! "scope")) in Heq.
    vm_compute in Heq. discriminate.
  - eexists _, _.
    split; [vm_compute; reflexivity|]. split; [vm_compute; reflexivity|].
    split; [vm_compute; reflexivity|]. split; [vm_compute; reflexivity|].
    intros Heq. vm_compute in Heq. discriminate.
  - eexists _, _.
    split; [vm_compute; reflexivity|]. split; [vm_compute; reflexivity|].
    split; [vm_compute; reflexivity|]. split; [vm_compute; reflexivity|].
    split; [vm_compute; reflexivity|].
    intros Heq. apply (f_equal (λ d : dict, d !! "color")) in Heq.
    vm_compute in Heq. discriminate.
Qed.

(** C1: a prepared tree should not be changed by [execute], and the stored
    positional values of an [SLDisplayable] should be the same after
    [execute] as before.  With [pass_context] set and constant positional
    expressions only, the local [positional] is the stored list itself and
    the context is inserted into it: [text 'red'] has the stored values
    ['red'] before [execute] and a context in front of them after, and a
    second [execute] calls the construction function on two contexts and
    ['red']. *)
Theorem execute_inserts_context_in_stored_values :
  let before := SLDisplayable None with_context constant_red no_keyword [] in
  let after :=
    SLDisplayable None with_context
      {| positional := ["'red'"];
         positional_values := Some (Some [VContext ∅ ∅ ""; VStr "red"]);
         positional_exprs := Some None |} no_keyword [] in
  prepare (SLDisplayable None with_context (declared ["'red'"]) (given []) [])
  = Ok before
  ∧ execute 1 before SLContext.root no_ui
    = Ok (after,
          SLContext.set_children
            [Built "text" [VContext ∅ ∅ ""; VStr "red"] ∅ []] SLContext.root,
          no_ui)
  ∧ after ≠ before
  ∧ ∃ again,
      execute 1 after SLContext.root no_ui
      = Ok (again,
            SLContext.set_children
              [Built "text" [VContext ∅ ∅ ""; VContext ∅ ∅ ""; VStr "red"] ∅
                 []] SLContext.root,
            no_ui).
Proof.
  split; [vm_compute; reflexivity|].
  split; [vm_compute; reflexivity|].
  split; [discriminate|].
  eexists. vm_compute. reflexivity.
Qed.

(** [color c] on a block, with [c] bound to ['red'] in the scope of the
    context: the keyword pass does not find [c]. *)
Example keyword_expression_without_scope :
  let block :=
    SLBlock None
      {| keyword := [("color", "c")]; keyword_values := Some None;
         keyword_exprs := Some (Some (Code (Dict [Str "color"] [Expr "c"]))) |}
      [] in
  let context := SLContext.set_scope {["c" := VStr "red"]} SLContext.root in
  prepare (SLBlock None (given [("color", "c")]) []) = Ok block
  ∧ py_eval_bytecode (Code (Expr "c")) (Locals (SLContext.scope context))
    = Ok (VStr "red")
  ∧ keywords block context = Raise (NameError "c").
Proof. repeat split; vm_compute; reflexivity. Qed.

(** The keyword pass of a block with [style_group 'w'] and [color 'red']
    changes the keywords and the style prefix of the context, not its scope
    or its children. *)
Lemma keywords_touches_keywords_and_prefix_only_witness :
  ∃ context',
    keywords group_w busy = Ok context'
    ∧ SLContext.scope context' = SLContext.scope busy
    ∧ SLContext.children context' = SLContext.children busy.
Proof.
  assert (∃ r, keywords group_w busy = Ok r) as [context' E]
    by (eexists; vm_compute; reflexivity).
  exists context'. split; [exact E|].
  exact (keywords_touches_keywords_and_prefix_only _ _ _ E).
Defined.

(** [for x in [1, 2, 3]: text x] in a context that has a child and a
    keyword. *)
Lemma execute_only_appends_witness :
  ∃ self' context' u',
    execute 2 for_x_text_x busy no_ui = Ok (self', context', u')
    ∧ ∃ new,
        SLContext.children context' = SLContext.children busy ++ new
        ∧ SLContext.keywords context' = SLContext.keywords busy
        ∧ SLContext.style_prefix context' = SLContext.style_prefix busy.
Proof.
  assert (∃ r, execute 2 for_x_text_x busy no_ui = Ok r)
    as [[[self' context'] u'] E] by (eexists; vm_compute; reflexivity).
  exists self', context', u'. split; [exact E|].
  exact (execute_only_appends _ _ _ _ _ _ _ E).
Defined.


(** The conditional of depth 3, with fuel 3 and with fuel 7. *)
Lemma execute_fuel_irrelevant_witness :
  execute 7 if_a_elif_b a_false_b_true no_ui
  = execute 3 if_a_elif_b a_false_b_true no_ui
  ∧ settled (execute 3 if_a_elif_b a_false_b_true no_ui).
Proof.
  apply execute_fuel_irrelevant; vm_compute; lia.
Defined.

(** [vbox id 'w': text 'red'] is the same tree after [execute]. *)
Lemma execute_leaves_tree_witness :
  ∃ self' context' u',
    execute 2 vbox_text busy no_ui = Ok (self', context', u')
    ∧ self' = vbox_text.
Proof.
  assert (∃ r, execute 2 vbox_text busy no_ui = Ok r)
    as [[[self' context'] u'] E] by (eexists; vm_compute; reflexivity).
  exists self', context', u'. split; [exact E|].
  exact (execute_leaves_tree 2 vbox_text _ _ _ _ _ eq_refl E).
Defined.

(** [default y = 5] in a scope without [y]: [y] is bound to 5, [a] is what
    it was, and a second [execute] changes nothing. *)
Lemma SLDefault_execute_once_witness :
  ∃ self' context' u',
    execute 1 default_y busy no_ui = Ok (self', context', u')
    ∧ SLContext.scope context' = <["y" := VInt 5]> (SLContext.scope busy)
    ∧ SLContext.scope context' !! "a" = SLContext.scope busy !! "a"
    ∧ execute 1 self' context' u' = Ok (self', context', u').
Proof.
  assert (∃ r, execute 1 default_y busy no_ui = Ok r)
    as [[[self' context'] u'] E] by (eexists; vm_compute; reflexivity).
  exists self', context', u'. split; [exact E|].
  destruct (SLDefault_execute_once _ _ _ _ _ _ _ _ _ _ E)
    as (_ & _ & _ & Hbound & Hother & Hagain).
  split; [|split; [by apply Hother|apply Hagain]].
  change (SLContext.scope busy !! "y") with (@None value) in Hbound.
  destruct Hbound as (bc & v & Hbc & Hv & Hscope).
  injection Hbc as <-. vm_compute in Hv. injection Hv as <-. exact Hscope.
Defined.

(** [for x in [1, 2, 3]: text x], from its declaration: the iterable is
    the constant [prepare] computed. *)
Lemma SLFor_iterable_witness :
  ∃ self',
    prepare (SLFor None "x" "[1, 2, 3]" None None (given [])
               [SLDisplayable None (flags "text") (declared ["x"]) (given [])
                  []]) = Ok self'
    ∧ ∃ context' u',
        execute 2 self' busy no_ui = Ok (self', context', u')
        ∧ SLContext.children context'
          = SLContext.children busy
            ++ [Built "text" [VInt 1] ∅ []; Built "text" [VInt 2] ∅ [];
                Built "text" [VInt 3] ∅ []].
Proof.
  assert (∃ r, prepare (SLFor None "x" "[1, 2, 3]" None None (given [])
                          [SLDisplayable None (flags "text") (declared ["x"])
                             (given []) []]) = Ok r) as [self' E]
    by (eexists; vm_compute; reflexivity).
  exists self'. split; [exact E|].
  destruct (SLFor_iterable _ _ _ _ _ _ _ _ E)
    as (node & value & expr & kw' & children' & -> & Enode & Hconstant
        & Hexecute).
  pose proof E as E'. vm_compute in E'. injection E' as <- <- <- <-.
  vm_compute in Enode. injection Enode as <-.
  rewrite Hexecute.
  eexists _, _. split; [vm_compute; reflexivity|].
  vm_compute. reflexivity.
Defined.

(** [if a: text 'red' elif b: text 5 else: text 1], from its
    declaration. *)
Lemma SLIf_prepare_parallel_witness :
  ∃ entries',
    prepare (SLIf (Some 1)
               [(Some "a", SLBlock None (given []) []);
                (Some "b", SLBlock None (given []) []);
                (None, SLBlock None (given []) [])] None)
    = Ok (SLIf (Some 1) entries'
            (Some [Some (Code (Expr "a")); Some (Code (Expr "b")); None]))
    ∧ map fst entries' = [Some "a"; Some "b"; None].
Proof.
  assert (∃ r, prepare (SLIf (Some 1)
                          [(Some "a", SLBlock None (given []) []);
                           (Some "b", SLBlock None (given []) []);
                           (None, SLBlock None (given []) [])] None) = Ok r)
    as [self' E] by (eexists; vm_compute; reflexivity).
  destruct (SLIf_prepare_parallel _ _ _ _ E)
    as (entries' & conds & -> & _ & Hentries & Hconds).
  exists entries'.
  apply Forall2_cons_inv_l in Hconds
    as (c1 & l1 & (n1 & E1 & ->) & Hconds & ->).
  apply Forall2_cons_inv_l in Hconds
    as (c2 & l2 & (n2 & E2 & ->) & Hconds & ->).
  apply Forall2_cons_inv_l in Hconds as (c3 & l3 & [-> _] & Hconds & ->).
  apply Forall2_nil_inv_l in Hconds as ->.
  vm_compute in E1. injection E1 as <-.
  vm_compute in E2. injection E2 as <-.
  split; [exact E|].
  apply Forall2_cons_inv_l in Hentries as (e1 & k1 & [H1 _] & Hentries & ->).
  apply Forall2_cons_inv_l in Hentries as (e2 & k2 & [H2 _] & Hentries & ->).
  apply Forall2_cons_inv_l in Hentries as (e3 & k3 & [H3 _] & Hentries & ->).
  apply Forall2_nil_inv_l in Hentries as ->.
  simpl in *. by rewrite H1, H2, H3.
Defined.

(** [text 'red'] with the context passed: [execute] stores the context in
    the node, and [prepare] makes the node what it was. *)
Lemma prepare_after_execute_witness :
  let before := SLDisplayable None with_context constant_red no_keyword [] in
  ∃ after context' u',
    execute 1 before SLContext.root no_ui = Ok (after, context', u')
    ∧ after ≠ before
    ∧ prepare after = Ok before.
Proof.
  intros before.
  assert (∃ r, execute 1 before SLContext.root no_ui = Ok r
               ∧ r.1.1 ≠ before)
    as ([[after context'] u'] & E & Hafter)
    by (eexists; split; [vm_compute; reflexivity|discriminate]).
  exists after, context', u'. split; [exact E|]. split; [exact Hafter|].
  destruct (prepare_after_execute _ _ _ _ _ _ _ E) as [_ Hprepare].
  apply (Hprepare (SLDisplayable None with_context (declared ["'red'"])
                     (given []) [])).
  vm_compute. reflexivity.
Defined.



(** [text x] with the context passed never returns. *)
Lemma pass_context_without_constant_witness :
  ∃ pos,
    prepare_positional (declared ["x"]) = Ok pos
    ∧ execute 1 (SLDisplayable None with_context pos no_keyword [])
        (SLContext.set_scope {["x" := VInt 1]} SLContext.root) no_ui
      = Raise AttributeError.
Proof.
  destruct (pass_context_without_constant with_context (declared ["x"]))
    as (pos & nodes & Epos & Hnodes & Hexecute).
  - reflexivity.
  - discriminate.
  - repeat constructor. exists (Expr "x"). split; vm_compute; reflexivity.
  - exists pos. split; [exact Epos|]. rewrite Hexecute.
    apply Forall2_cons_inv_l in Hnodes as (node & l & Enode & Hnodes & ->).
    apply Forall2_nil_inv_l in Hnodes as ->.
    vm_compute in Enode. injection Enode as <-.
    vm_compute. reflexivity.
Defined.


(** [text style_group 'w'] is built without [style_group]. *)
Lemma style_group_not_passed_witness :
  ∃ c,
    SLDisplayable_arguments text_style constant_red group_kw []
      SLContext.root no_ui = Ok c
    ∧ passed_keywords c !! "style_group" = None.
Proof.
  assert (∃ r, SLDisplayable_arguments text_style constant_red group_kw []
                 SLContext.root no_ui = Ok r) as [c E]
    by (eexists; vm_compute; reflexivity).
  exists c. split; [exact E|].
  destruct (style_group_not_passed _ _ _ _ _ _ _ E)
    as (overrides & Eov & ->).
  pose proof E as E'. vm_compute in E'. injection E' as <-.
  vm_compute in Eov. by injection Eov as <-.
Defined.


(** A block with [color c] and then [color 'red'], where [c] is ['blue'] in
    the store: the keyword pass gives [color 'blue']. *)
Lemma keywords_constants_first_witness :
  ∃ kw context',
    SLBlock_prepare (H := Stored.host) (prepare (H := Stored.host))
      (given [("color", "c"); ("color", "'red'")]) [] = Ok (kw, [])
    ∧ SLBlock_keywords (H := Stored.host) (keywords (H := Stored.host)) kw []
        SLContext.root = Ok context'
    ∧ SLContext.keywords context' = {["color" := VStr "blue"]}.
Proof.
  assert (∃ r, SLBlock_prepare (H := Stored.host)
                 (prepare (H := Stored.host))
                 (given [("color", "c"); ("color", "'red'")]) [] = Ok r
               ∧ r.2 = [])
    as ([kw children] & Ekw & Hchildren)
    by (eexists; split; vm_compute; reflexivity).
  simpl in Hchildren. subst children.
  assert (∃ r, SLBlock_keywords (H := Stored.host)
                 (keywords (H := Stored.host)) kw [] SLContext.root = Ok r)
    as [context' E].
  { pose proof Ekw as Ekw'. vm_compute in Ekw'. injection Ekw' as <-.
    eexists. vm_compute. reflexivity. }
  exists kw, context'. split; [exact Ekw|]. split; [exact E|].
  destruct (keywords_constants_first (H := Stored.host) _ _ _ _ _ _ Ekw E)
    as (vals & assembled & Evals & Hassembled & Echildren).
  injection Echildren as <-. rewrite Hassembled.
  vm_compute in Evals. injection Evals as <-.
  vm_compute. reflexivity.
Defined.
